(** * InvoiceManager: a shallow embedding of the invoice ledger contract

    The contract [InvoiceManager] (Solidity ^0.8.17) keeps invoices,
    accepts partial payments and overpayments, lets the issuer withdraw
    the collected funds or cancel, and refunds through a pull ledger
    ([pendingReturns]).

    - [uint256] and [address] values are integers ([Z]); Solidity 0.8
      arithmetic is checked, so [+] and [-] revert with a panic outside
      [0 .. 2^256-1] ([checked_add], [checked_sub]).
    - A [mapping] is a finite map read with a zero default.
    - A function body is a computation in the monad [M]: it threads the
      contract state and stops at the first failing [require], panic or
      failed transfer, keeping the state reached so far. [exec] is the
      message call: it credits [msg.value], runs the body and, when the
      body fails, discards every change (the revert).
    - The recipient of [Address.sendValue] is outside the contract and
      receives control together with the ether. Its code may refuse the
      ether, or accept it after calling the contract back: [createInvoice],
      [cancelInvoice], [receive] and the two functions inherited from
      [Ownable] carry no [nonReentrant] and run inside the transfer
      ([Callback], [callbacks]).
    - Ether that reaches the contract without a call (it is named by a
      self-destruct or by a block reward) changes the state as a call of
      [receive] does, and is not told apart from one.
    - [payInvoice], [withdraw] and [withdrawPending] are [nonReentrant].
      The status word of [ReentrancyGuard] is clear whenever a call of a
      transaction starts and is set while a recipient holds control, so a
      call back into one of these three reverts and changes nothing; the
      status word is not part of the state, and such calls back are not
      listed among the things a recipient does. *)

From stdpp Require Import gmap strings list fin_maps.
From Stdlib Require Import ZArith Lia.

Local Open Scope string_scope.
Local Open Scope Z_scope.

(** ** Data model *)

Abbreviation address := Z.

Definition MAX_UINT256 : Z := 2 ^ 256 - 1.
Definition MAX_ADDRESS : Z := 2 ^ 160 - 1.

Record Invoice := mkInvoice {
  id : Z;
  issuer : address;
  payer : address;
  amount : Z;
  paidAmount : Z;
  dueDate : Z;
  cancelled : bool
}.

(** The value a mapping returns for a key never written. *)
Definition zero_invoice : Invoice := mkInvoice 0 0 0 0 0 0 false.

Inductive Event :=
| OwnershipTransferred (previousOwner newOwner : address)
| InvoiceCreated (id : Z) (issuer payer : address) (amount : Z)
| InvoicePaid (id : Z) (payer : address) (amount paidAmount : Z)
| InvoiceCancelled (id : Z)
| InvoiceWithdrawn (id : Z) (issuer : address) (amount : Z)
| PendingReturnWithdrawn (user : address) (amount : Z).

(** Contract storage ([owner] is the [_owner] of [Ownable]), the ether
    the contract holds ([balance]) and the events emitted so far
    ([events], most recent first). *)
Record State := mkState {
  owner : address;
  nextInvoiceId : Z;
  invoices : gmap Z Invoice;
  invoiceMetadata : gmap Z string;
  pendingReturns : gmap Z Z;
  invoicesOfIssuer : gmap Z (list Z);
  invoicesOfPayer : gmap Z (list Z);
  balance : Z;
  events : list Event
}.

(** The contract as [constructor(_owner)] leaves it: [Ownable]'s
    constructor has recorded the owner and logged it; the ledger is
    empty. *)
Definition init (_owner : address) : State :=
  mkState _owner 0 ∅ ∅ ∅ ∅ ∅ 0 [OwnershipTransferred 0 _owner].

(** *** Storage reads: [invoices[i]], [pendingReturns[a]], ... *)

Definition invoices_at (s : State) (i : Z) : Invoice :=
  default zero_invoice (invoices s !! i).
Definition invoiceMetadata_at (s : State) (i : Z) : string :=
  default "" (invoiceMetadata s !! i).
Definition pendingReturns_at (s : State) (a : address) : Z :=
  default 0 (pendingReturns s !! a).
Definition invoicesOfIssuer_at (s : State) (a : address) : list Z :=
  default [] (invoicesOfIssuer s !! a).
Definition invoicesOfPayer_at (s : State) (a : address) : list Z :=
  default [] (invoicesOfPayer s !! a).

(** *** Storage writes *)

Definition set_owner (a : address) (s : State) : State :=
  mkState a (nextInvoiceId s) (invoices s) (invoiceMetadata s)
    (pendingReturns s) (invoicesOfIssuer s) (invoicesOfPayer s) (balance s)
    (events s).

Definition set_nextInvoiceId (n : Z) (s : State) : State :=
  mkState (owner s) n (invoices s) (invoiceMetadata s) (pendingReturns s)
    (invoicesOfIssuer s) (invoicesOfPayer s) (balance s) (events s).

Definition set_invoice (i : Z) (inv : Invoice) (s : State) : State :=
  mkState (owner s) (nextInvoiceId s) (<[i := inv]> (invoices s))
    (invoiceMetadata s) (pendingReturns s) (invoicesOfIssuer s)
    (invoicesOfPayer s) (balance s) (events s).

Definition with_paidAmount (v : Z) (inv : Invoice) : Invoice :=
  mkInvoice (id inv) (issuer inv) (payer inv) (amount inv) v (dueDate inv)
    (cancelled inv).

Definition with_cancelled (b : bool) (inv : Invoice) : Invoice :=
  mkInvoice (id inv) (issuer inv) (payer inv) (amount inv) (paidAmount inv)
    (dueDate inv) b.

(** [invoices[i].paidAmount = v] *)
Definition set_paidAmount (i v : Z) (s : State) : State :=
  set_invoice i (with_paidAmount v (invoices_at s i)) s.

(** [invoices[i].cancelled = b] *)
Definition set_cancelled (i : Z) (b : bool) (s : State) : State :=
  set_invoice i (with_cancelled b (invoices_at s i)) s.

Definition set_invoiceMetadata (i : Z) (md : string) (s : State) : State :=
  mkState (owner s) (nextInvoiceId s) (invoices s)
    (<[i := md]> (invoiceMetadata s)) (pendingReturns s) (invoicesOfIssuer s)
    (invoicesOfPayer s) (balance s) (events s).

Definition set_pendingReturns (a : address) (v : Z) (s : State) : State :=
  mkState (owner s) (nextInvoiceId s) (invoices s) (invoiceMetadata s)
    (<[a := v]> (pendingReturns s)) (invoicesOfIssuer s) (invoicesOfPayer s)
    (balance s) (events s).

(** [invoicesOfIssuer[a].push(i)] *)
Definition push_invoicesOfIssuer (a : address) (i : Z) (s : State) : State :=
  mkState (owner s) (nextInvoiceId s) (invoices s) (invoiceMetadata s)
    (pendingReturns s)
    (<[a := (invoicesOfIssuer_at s a ++ [i])%list]> (invoicesOfIssuer s))
    (invoicesOfPayer s) (balance s) (events s).

(** [invoicesOfPayer[a].push(i)] *)
Definition push_invoicesOfPayer (a : address) (i : Z) (s : State) : State :=
  mkState (owner s) (nextInvoiceId s) (invoices s) (invoiceMetadata s)
    (pendingReturns s) (invoicesOfIssuer s)
    (<[a := (invoicesOfPayer_at s a ++ [i])%list]> (invoicesOfPayer s))
    (balance s) (events s).

Definition set_balance (b : Z) (s : State) : State :=
  mkState (owner s) (nextInvoiceId s) (invoices s) (invoiceMetadata s)
    (pendingReturns s) (invoicesOfIssuer s) (invoicesOfPayer s) b (events s).

Definition add_event (e : Event) (s : State) : State :=
  mkState (owner s) (nextInvoiceId s) (invoices s) (invoiceMetadata s)
    (pendingReturns s) (invoicesOfIssuer s) (invoicesOfPayer s) (balance s)
    (e :: events s).

(** ** The execution monad *)

Inductive Error :=
| Revert (reason : string)  (* a failed [require(cond, reason)] *)
| OwnableUnauthorizedAccount (account : address)
| OwnableInvalidOwner (account : address)
| TransferFailed            (* [Address.sendValue] reverted *)
| Panic.                    (* checked arithmetic left [0 .. 2^256-1] *)

Definition M (A : Type) : Type := State → State * (Error + A).

Definition ret {A} (a : A) : M A := λ s, (s, inr a).

Definition bind {A B} (m : M A) (k : A → M B) : M B :=
  λ s, match m s with
       | (s', inr a) => k a s'
       | (s', inl e) => (s', inl e)
       end.

Definition throw {A} (e : Error) : M A := λ s, (s, inl e).
Definition get : M State := λ s, (s, inr s).
Definition gets {A} (f : State → A) : M A := λ s, (s, inr (f s)).
Definition modify (f : State → State) : M unit := λ s, (f s, inr tt).

Global Instance M_ret : MRet M := @ret.
Global Instance M_bind : MBind M := λ A B k m, bind m k.

Definition require (c : bool) (reason : string) : M unit :=
  if c then ret tt else throw (Revert reason).

Definition emit (e : Event) : M unit := modify (add_event e).

(** Checked [uint256] arithmetic. *)
Definition checked_add (a b : Z) : M Z :=
  if bool_decide (a + b ≤ MAX_UINT256) then ret (a + b) else throw Panic.
Definition checked_sub (a b : Z) : M Z :=
  if bool_decide (b ≤ a) then ret (a - b) else throw Panic.

(** A message call carrying [value] wei: the ether is credited, the body
    runs, and a failure reverts to the state before the call. Functions
    that are not [payable] are called with [value = 0]. *)
Definition exec {A} (value : Z) (body : M A) (s : State)
    : State * (Error + A) :=
  match body (set_balance (balance s + value) s) with
  | (s', inr a) => (s', inr a)
  | (_, inl e) => (s, inl e)
  end.

(** ** The contract's functions without [nonReentrant]

    [sender] is [msg.sender]. [invoice.f] on the storage reference
    [invoice = invoices[invoiceId]] is a read of the storage of that
    moment ([invoice_field]). *)

Definition invoice_field {A} (f : Invoice → A) (invoiceId : Z) : M A :=
  gets (λ s, f (invoices_at s invoiceId)).

Definition createInvoice (sender : address) (payer : address)
    (amount dueDate : Z) (metadata : string) : M Z :=
  require (bool_decide (amount > 0))
    "InvoiceManager: amount must be greater than 0";;
  invoiceId ← gets nextInvoiceId;
  next ← checked_add invoiceId 1;
  modify (set_nextInvoiceId next);;
  modify (set_invoice invoiceId
            (mkInvoice invoiceId sender payer amount 0 dueDate false));;
  modify (set_invoiceMetadata invoiceId metadata);;
  modify (push_invoicesOfIssuer sender invoiceId);;
  (if bool_decide (payer ≠ 0)
   then modify (push_invoicesOfPayer payer invoiceId)
   else mret tt);;
  emit (InvoiceCreated invoiceId sender payer amount);;
  mret invoiceId.

Definition cancelInvoice (sender : address) (invoiceId : Z) : M unit :=
  iss ← invoice_field issuer invoiceId;
  require (bool_decide (iss ≠ 0)) "InvoiceManager: invoice does not exist";;
  require (bool_decide (iss = sender))
    "InvoiceManager: only issuer can cancel";;
  c ← invoice_field cancelled invoiceId;
  require (negb c) "InvoiceManager: invoice is already cancelled";;
  modify (set_cancelled invoiceId true);;
  paid ← invoice_field paidAmount invoiceId;
  p ← invoice_field payer invoiceId;
  (if bool_decide (paid > 0) && bool_decide (p ≠ 0) then
     pending ← gets (λ s, pendingReturns_at s p);
     pending' ← checked_add pending paid;
     modify (set_pendingReturns p pending');;
     modify (set_paidAmount invoiceId 0)
   else mret tt);;
  emit (InvoiceCancelled invoiceId).

(** [receive() external payable {}] *)
Definition receive : M unit := mret tt.

(** *** Inherited from [Ownable] (OpenZeppelin Contracts 5) *)

Definition _transferOwnership (newOwner : address) : M unit :=
  oldOwner ← gets owner;
  modify (set_owner newOwner);;
  emit (OwnershipTransferred oldOwner newOwner).

(** The modifier [onlyOwner]. *)
Definition _checkOwner (sender : address) : M unit :=
  o ← gets owner;
  if bool_decide (o ≠ sender) then throw (OwnableUnauthorizedAccount sender)
  else mret tt.

Definition renounceOwnership (sender : address) : M unit :=
  _checkOwner sender;;
  _transferOwnership 0.

Definition transferOwnership (sender : address) (newOwner : address)
    : M unit :=
  _checkOwner sender;;
  if bool_decide (newOwner = 0) then throw (OwnableInvalidOwner 0)
  else _transferOwnership newOwner.

(** ** The recipient of a transfer

    What the code of a recipient can call while it holds control: the
    entry points above. Each such call is a message call of its own, with
    its own [msg.sender]. *)

Inductive Callback :=
| CbCreateInvoice (payer : address) (amount dueDate : Z) (metadata : string)
| CbCancelInvoice (invoiceId : Z)
| CbReceive (value : Z)
| CbTransferOwnership (newOwner : address)
| CbRenounceOwnership.

Definition callback_value (cb : Callback) : Z :=
  match cb with
  | CbReceive v => v
  | _ => 0
  end.

Definition callback_body (sender : address) (cb : Callback) : M unit :=
  match cb with
  | CbCreateInvoice p a d md => createInvoice sender p a d md;; mret tt
  | CbCancelInvoice i => cancelInvoice sender i
  | CbReceive _ => receive
  | CbTransferOwnership o => transferOwnership sender o
  | CbRenounceOwnership => renounceOwnership sender
  end.

(** One call back: it takes effect, or it fails and reverts alone. *)
Definition callback (sender : address) (cb : Callback) (s : State) : State :=
  (exec (callback_value cb) (callback_body sender cb) s).1.

(** The calls back a recipient makes, in order. *)
Fixpoint callbacks (cbs : list (address * Callback)) (s : State) : State :=
  match cbs with
  | [] => s
  | (sender, cb) :: cbs' => callbacks cbs' (callback sender cb s)
  end.

(** The world outside the contract: what the call that carries [amount]
    wei to [recipient] does, given the contract state at the moment of the
    call. It fails ([None]), and whatever it did is reverted with it; or
    it returns ([Some cbs]) after the calls back [cbs]. The calls back are
    a function of that state, so they may follow from what the contract
    holds and from what earlier calls back did to it. *)
Definition Recipient : Type :=
  address → Z → State → option (list (address * Callback)).

(** [Address.sendValue(recipient, amount)]: reverts when the contract
    holds less than [amount]; otherwise the ether leaves with the call
    and the recipient's code runs, calls back included; a failure of that
    call reverts. *)
Definition sendValue (recipient : address) (amount : Z)
    (accepts : Recipient) : M unit :=
  bal ← gets balance;
  if bool_decide (bal < amount) then throw TransferFailed
  else
    modify (set_balance (bal - amount));;
    s ← get;
    match accepts recipient amount s with
    | Some cbs => modify (callbacks cbs)
    | None => throw TransferFailed
    end.

(** ** The contract's [nonReentrant] functions and its views

    For [payInvoice], [value] is [msg.value]. *)

Definition payInvoice (sender : address) (value : Z) (invoiceId : Z)
    : M unit :=
  require (bool_decide (value > 0))
    "InvoiceManager: payment amount must be greater than 0";;
  iss ← invoice_field issuer invoiceId;
  require (bool_decide (iss ≠ 0)) "InvoiceManager: invoice does not exist";;
  c ← invoice_field cancelled invoiceId;
  require (negb c) "InvoiceManager: invoice is cancelled";;
  p ← invoice_field payer invoiceId;
  require (bool_decide (p = 0) || bool_decide (p = sender))
    "InvoiceManager: invoice is not addressed to you";;
  a ← invoice_field amount invoiceId;
  paid ← invoice_field paidAmount invoiceId;
  remaining ← checked_sub a paid;
  require (bool_decide (remaining > 0))
    "InvoiceManager: invoice is already fully paid";;
  paymentAmount ←
    (if bool_decide (value > remaining) then
       overpay ← checked_sub value remaining;
       pending ← gets (λ s, pendingReturns_at s sender);
       pending' ← checked_add pending overpay;
       modify (set_pendingReturns sender pending');;
       mret remaining
     else mret value);
  paid ← invoice_field paidAmount invoiceId;
  paid' ← checked_add paid paymentAmount;
  modify (set_paidAmount invoiceId paid');;
  paid ← invoice_field paidAmount invoiceId;
  emit (InvoicePaid invoiceId sender paymentAmount paid).

Definition withdraw (sender : address) (invoiceId : Z)
    (accepts : Recipient) : M unit :=
  iss ← invoice_field issuer invoiceId;
  require (bool_decide (iss ≠ 0)) "InvoiceManager: invoice does not exist";;
  require (bool_decide (iss = sender))
    "InvoiceManager: only issuer can withdraw";;
  paid ← invoice_field paidAmount invoiceId;
  require (bool_decide (paid > 0)) "InvoiceManager: no funds to withdraw";;
  withdrawAmount ← invoice_field paidAmount invoiceId;
  modify (set_paidAmount invoiceId 0);;
  sendValue sender withdrawAmount accepts;;
  emit (InvoiceWithdrawn invoiceId sender withdrawAmount).

Definition withdrawPending (sender : address) (accepts : Recipient)
    : M unit :=
  amount ← gets (λ s, pendingReturns_at s sender);
  require (bool_decide (amount > 0)) "InvoiceManager: no pending returns";;
  modify (set_pendingReturns sender 0);;
  sendValue sender amount accepts;;
  emit (PendingReturnWithdrawn sender amount).

Definition getInvoice (invoiceId : Z) : M (Invoice * string) :=
  invoice ← gets (λ s, invoices_at s invoiceId);
  require (bool_decide (issuer invoice ≠ 0))
    "InvoiceManager: invoice does not exist";;
  metadata ← gets (λ s, invoiceMetadata_at s invoiceId);
  mret (invoice, metadata).

Definition getInvoicesOfIssuer (a : address) : M (list Z) :=
  gets (λ s, invoicesOfIssuer_at s a).

Definition getInvoicesOfPayer (a : address) : M (list Z) :=
  gets (λ s, invoicesOfPayer_at s a).

Definition getRemainingAmount (invoiceId : Z) : M Z :=
  invoice ← gets (λ s, invoices_at s invoiceId);
  require (bool_decide (issuer invoice ≠ 0))
    "InvoiceManager: invoice does not exist";;
  if bool_decide (amount invoice > paidAmount invoice)
  then checked_sub (amount invoice) (paidAmount invoice)
  else mret 0.

(** ** Calls and reachable states *)

(** The calls of transactions. *)
Inductive Call :=
| CreateInvoice (payer : address) (amount dueDate : Z) (metadata : string)
| PayInvoice (value : Z) (invoiceId : Z)
| Withdraw (invoiceId : Z) (accepts : Recipient)
| CancelInvoice (invoiceId : Z)
| WithdrawPending (accepts : Recipient)
| Receive (value : Z)
| TransferOwnership (newOwner : address)
| RenounceOwnership.

Definition call_value (c : Call) : Z :=
  match c with
  | PayInvoice v _ | Receive v => v
  | _ => 0
  end.

Definition call_body (sender : address) (c : Call) : M unit :=
  match c with
  | CreateInvoice p a d md => createInvoice sender p a d md;; mret tt
  | PayInvoice v i => payInvoice sender v i
  | Withdraw i acc => withdraw sender i acc
  | CancelInvoice i => cancelInvoice sender i
  | WithdrawPending acc => withdrawPending sender acc
  | Receive _ => receive
  | TransferOwnership o => transferOwnership sender o
  | RenounceOwnership => renounceOwnership sender
  end.

Definition call (sender : address) (c : Call) (s : State)
    : State * (Error + unit) :=
  exec (call_value c) (call_body sender c) s.

Definition step (sender : address) (c : Call) (s : State) : State :=
  (call sender c s).1.

(** A call back is the same call made from inside a transfer. *)
Definition as_call (cb : Callback) : Call :=
  match cb with
  | CbCreateInvoice p a d md => CreateInvoice p a d md
  | CbCancelInvoice i => CancelInvoice i
  | CbReceive v => Receive v
  | CbTransferOwnership o => TransferOwnership o
  | CbRenounceOwnership => RenounceOwnership
  end.

(** The state in which [withdraw] hands control to the recipient: the
    invoice already holds nothing and the ether has left. *)
Definition withdraw_mid (i : Z) (s : State) : State :=
  set_balance (balance s - paidAmount (invoices_at s i))
    (set_invoice i (with_paidAmount 0 (invoices_at s i)) s).

(** The same for [withdrawPending]. *)
Definition withdrawPending_mid (sender : address) (s : State) : State :=
  set_balance (balance s - pendingReturns_at s sender)
    (set_pendingReturns sender 0 s).

Definition is_uint256 (x : Z) : Prop := 0 ≤ x ≤ MAX_UINT256.
Definition is_address (x : Z) : Prop := 0 ≤ x ≤ MAX_ADDRESS.

(** What the platform guarantees of a call back: the caller is a nonzero
    account, every argument fits its type, and the ether sent fits in the
    contract's balance word. *)
Definition callback_ok (s : State) (sender : address) (cb : Callback)
    : Prop :=
  is_address sender ∧ sender ≠ 0 ∧
  0 ≤ callback_value cb ∧ balance s + callback_value cb ≤ MAX_UINT256 ∧
  match cb with
  | CbCreateInvoice p a d _ => is_address p ∧ is_uint256 a ∧ is_uint256 d
  | CbCancelInvoice i => is_uint256 i
  | CbTransferOwnership o => is_address o
  | CbReceive _ | CbRenounceOwnership => True
  end.

Fixpoint callbacks_ok (cbs : list (address * Callback)) (s : State) : Prop :=
  match cbs with
  | [] => True
  | (sender, cb) :: cbs' =>
      callback_ok s sender cb ∧ callbacks_ok cbs' (callback sender cb s)
  end.

(** The calls back that [accepts] makes when it is sent [amount] in
    state [s] are such calls. *)
Definition recipient_ok (accepts : Recipient) (recipient : address)
    (amount : Z) (s : State) : Prop :=
  match accepts recipient amount s with
  | Some cbs => callbacks_ok cbs s
  | None => True
  end.

(** What the platform guarantees of a call of a transaction: the same,
    and the same of the calls back made by the recipient of its
    transfer. *)
Definition call_ok (s : State) (sender : address) (c : Call) : Prop :=
  is_address sender ∧ sender ≠ 0 ∧
  0 ≤ call_value c ∧ balance s + call_value c ≤ MAX_UINT256 ∧
  match c with
  | CreateInvoice p a d _ => is_address p ∧ is_uint256 a ∧ is_uint256 d
  | PayInvoice _ i | CancelInvoice i => is_uint256 i
  | Withdraw i acc =>
      is_uint256 i ∧
      recipient_ok acc sender (paidAmount (invoices_at s i)) (withdraw_mid i s)
  | WithdrawPending acc =>
      recipient_ok acc sender (pendingReturns_at s sender)
        (withdrawPending_mid sender s)
  | TransferOwnership o => is_address o
  | Receive _ | RenounceOwnership => True
  end.

(** The contract is deployed with a nonzero owner ([Ownable]'s
    constructor reverts otherwise); every call of a transaction leads from
    a reachable state to a reachable state. *)
Inductive reachable : State → Prop :=
| reachable_init _owner :
    is_address _owner → _owner ≠ 0 → reachable (init _owner)
| reachable_step s sender c :
    reachable s → call_ok s sender c → reachable (step sender c s).

(** Running a list of calls, and when each of them is well formed. *)
Fixpoint run (cs : list (address * Call)) (s : State) : State :=
  match cs with
  | [] => s
  | (sender, c) :: cs' => run cs' (step sender c s)
  end.

Fixpoint run_ok (cs : list (address * Call)) (s : State) : Prop :=
  match cs with
  | [] => True
  | (sender, c) :: cs' => call_ok s sender c ∧ run_ok cs' (step sender c s)
  end.

(** ** Sums over a mapping *)

Definition msum {V} (f : V → Z) (m : gmap Z V) : Z :=
  map_fold (λ _ v acc, f v + acc) 0 m.

(** Ether owed by the contract: what invoices hold plus what is pending. *)
Definition held (s : State) : Z :=
  msum paidAmount (invoices s) + msum (λ v, v) (pendingReturns s).

(** ** The representation invariant *)

Record invoice_ok (i : Z) (inv : Invoice) : Prop := {
  ok_id : id inv = i;
  ok_issuer : issuer inv ≠ 0;
  ok_amount : 0 < amount inv ≤ MAX_UINT256;
  ok_paid : 0 ≤ paidAmount inv ≤ amount inv;
  ok_refunded : cancelled inv = true → payer inv ≠ 0 → paidAmount inv = 0
}.

(** Well-formed storage: records exist exactly below [nextInvoiceId],
    each is a well-formed invoice, and no pending return is negative. *)
Record wf (s : State) : Prop := {
  wf_next : 0 ≤ nextInvoiceId s ≤ MAX_UINT256;
  wf_dom : ∀ i, is_Some (invoices s !! i) ↔ 0 ≤ i < nextInvoiceId s;
  wf_invoice : ∀ i inv, invoices s !! i = Some inv → invoice_ok i inv;
  wf_pending : ∀ a v, pendingReturns s !! a = Some v → 0 ≤ v
}.

(** The invariant: well-formed storage, and the contract holds at least
    the ether it owes. *)
Record Inv (s : State) : Prop := {
  inv_wf : wf s;
  inv_solvent : held s ≤ balance s;
  inv_balance : balance s ≤ MAX_UINT256
}.

(** ** Error kinds of the specification, as the contract reports them *)

Definition InvalidInvoiceAmount : Error :=
  Revert "InvoiceManager: amount must be greater than 0".
Definition InvalidAmount : Error :=
  Revert "InvoiceManager: payment amount must be greater than 0".
Definition InvoiceNotFound : Error :=
  Revert "InvoiceManager: invoice does not exist".
Definition InvoiceIsCancelled : Error :=
  Revert "InvoiceManager: invoice is cancelled".
Definition UnauthorizedPayer : Error :=
  Revert "InvoiceManager: invoice is not addressed to you".
Definition AlreadyFullyPaid : Error :=
  Revert "InvoiceManager: invoice is already fully paid".
Definition UnauthorizedWithdraw : Error :=
  Revert "InvoiceManager: only issuer can withdraw".
Definition NoFundsToWithdraw : Error :=
  Revert "InvoiceManager: no funds to withdraw".
Definition UnauthorizedCancel : Error :=
  Revert "InvoiceManager: only issuer can cancel".
Definition AlreadyCancelled : Error :=
  Revert "InvoiceManager: invoice is already cancelled".
Definition NoPendingReturns : Error :=
  Revert "InvoiceManager: no pending returns".

(** ** States after a successful call *)

Definition createInvoice_post (sender p : address) (a d : Z) (md : string)
    (s : State) : State :=
  let i := nextInvoiceId s in
  let s1 :=
    push_invoicesOfIssuer sender i
      (set_invoiceMetadata i md
         (set_invoice i (mkInvoice i sender p a 0 d false)
            (set_nextInvoiceId (i + 1) s))) in
  let s2 := if bool_decide (p ≠ 0) then push_invoicesOfPayer p i s1 else s1 in
  add_event (InvoiceCreated i sender p a) s2.

Definition payInvoice_post (sender : address) (v i : Z) (s : State) : State :=
  let inv := invoices_at s i in
  let remaining := amount inv - paidAmount inv in
  let applied := Z.min v remaining in
  let s1 := set_balance (balance s + v) s in
  let s2 :=
    if bool_decide (v > remaining)
    then set_pendingReturns sender
           (pendingReturns_at s sender + (v - remaining)) s1
    else s1 in
  add_event (InvoicePaid i sender applied (paidAmount inv + applied))
    (set_invoice i (with_paidAmount (paidAmount inv + applied) inv) s2).

(** [withdraw] after a transfer that the recipient accepted with the
    calls back [cbs]. *)
Definition withdraw_post (sender : address) (i : Z)
    (cbs : list (address * Callback)) (s : State) : State :=
  add_event (InvoiceWithdrawn i sender (paidAmount (invoices_at s i)))
    (callbacks cbs (withdraw_mid i s)).

Definition cancelInvoice_post (i : Z) (s : State) : State :=
  let inv := invoices_at s i in
  let s1 :=
    if bool_decide (paidAmount inv > 0 ∧ payer inv ≠ 0)
    then set_invoice i (with_paidAmount 0 (with_cancelled true inv))
           (set_pendingReturns (payer inv)
              (pendingReturns_at s (payer inv) + paidAmount inv) s)
    else set_invoice i (with_cancelled true inv) s in
  add_event (InvoiceCancelled i) s1.

Definition withdrawPending_post (sender : address)
    (cbs : list (address * Callback)) (s : State) : State :=
  add_event (PendingReturnWithdrawn sender (pendingReturns_at s sender))
    (callbacks cbs (withdrawPending_mid sender s)).

Definition _transferOwnership_post (newOwner : address) (s : State) : State :=
  add_event (OwnershipTransferred (owner s) newOwner) (set_owner newOwner s).

(** The ether that the calls back [cbs] bring to the contract. *)
Definition sent_back (cbs : list (address * Callback)) : Z :=
  foldr (λ c acc, callback_value c.2 + acc) 0 cbs.

(** ** What a call leaves as it was *)

(** Invoice [i], if it exists in [s], is in [s'] with the same id, issuer,
    payer, amount, due date and metadata, and is cancelled in [s'] if it
    was in [s]. *)
Definition keeps (i : Z) (s s' : State) : Prop :=
  0 ≤ i < nextInvoiceId s →
  let inv := invoices_at s i in
  let inv' := invoices_at s' i in
  id inv' = id inv ∧ issuer inv' = issuer inv ∧ payer inv' = payer inv ∧
  amount inv' = amount inv ∧ dueDate inv' = dueDate inv ∧
  invoiceMetadata_at s' i = invoiceMetadata_at s i ∧
  (cancelled inv = true → cancelled inv' = true) ∧
  nextInvoiceId s ≤ nextInvoiceId s'.

(** No invoice holds more and no account has less pending in [s'] than
    in [s]. *)
Definition no_payment (s s' : State) : Prop :=
  (∀ i, paidAmount (invoices_at s' i) ≤ paidAmount (invoices_at s i)) ∧
  (∀ a, pendingReturns_at s a ≤ pendingReturns_at s' a).

(** ** Example runs *)

Definition alice : address := 1.
Definition bob : address := 7.
Definition carol : address := 9.
Definition dave : address := 3.

(** An account without code, or whose code just takes the ether. *)
Definition accept_all : Recipient := λ _ _ _, Some [].
(** Code that reverts when it is sent ether. *)
Definition refuse_all : Recipient := λ _ _ _, None.
(** Code that cancels invoice [i] when it is sent ether. *)
Definition cancels (i : Z) : Recipient :=
  λ recipient _ _, Some [(recipient, CbCancelInvoice i)].
(** Code that sends [v] wei of the ether back through [receive]. *)
Definition returns (v : Z) : Recipient :=
  λ recipient _ _, Some [(recipient, CbReceive v)].

(** The contract deployed by [dave]. *)
Definition deployed : State := init dave.

(** An invoice of 100 that [alice] addresses to [bob]. *)
Definition invoiced : State :=
  run [(alice, CreateInvoice bob 100 0 "rent")] deployed.

(** An invoice of 100 addressed to [bob], who pays 150. *)
Definition overpaid : State :=
  run [(alice, CreateInvoice bob 100 0 "rent"); (bob, PayInvoice 150 0)]
    deployed.

(** An invoice of 100 addressed to [bob], who has paid 30. *)
Definition part_paid : State :=
  run [(alice, CreateInvoice bob 100 0 "rent"); (bob, PayInvoice 30 0)]
    deployed.

(** An open invoice of 100 on which [carol] has paid 30. *)
Definition open_paid : State :=
  run [(alice, CreateInvoice 0 100 0 "fees"); (carol, PayInvoice 30 0)]
    deployed.

(** The same invoice once [alice] has cancelled it. *)
Definition open_cancelled : State :=
  run [(alice, CancelInvoice 0)] open_paid.

(** An invoice of 100 paid in two parts, 60 then 40. *)
Definition fully_paid : State :=
  run [(alice, CreateInvoice bob 100 0 "rent"); (bob, PayInvoice 60 0);
       (bob, PayInvoice 40 0)] deployed.

(** The fully paid invoice once [alice] has withdrawn the 100. *)
Definition withdrawn : State :=
  run [(alice, Withdraw 0 accept_all)] fully_paid.

(** Two invoices of [alice], 100 addressed to [bob] and fully paid, and 50
    addressed to [bob] on which he has paid 20. *)
Definition two_invoices : State :=
  run [(alice, CreateInvoice bob 100 0 "rent");
       (alice, CreateInvoice bob 50 0 "heating");
       (bob, PayInvoice 100 0); (bob, PayInvoice 20 1)] deployed.

(** ** Sequences of payments on one invoice *)

Definition payments (i : Z) (ps : list (address * Z))
    : list (address * Call) :=
  map (λ p, (p.1, PayInvoice p.2 i)) ps.

Definition total (ps : list (address * Z)) : Z :=
  foldr (λ p acc, p.2 + acc) 0 ps.

(** A payment the invoice's payer field [p] allows: a positive amount from
    a nonzero account, which is [p] unless the invoice is open. *)
Definition may_pay (p : address) (c : address * Z) : Prop :=
  c.1 ≠ 0 ∧ 0 < c.2 ∧ (p = 0 ∨ c.1 = p).

(** ** Further definitions *)



(** The calls back made by the recipient of the transfer of a successful
    call; none in a call that makes no transfer, or that fails. *)
Definition calls_back (sender : address) (c : Call) (s : State)
    : list (address * Callback) :=
  match (call sender c s).2 with
  | inl _ => []
  | inr _ =>
      match c with
      | Withdraw i acc =>
          default []
            (acc sender (paidAmount (invoices_at s i)) (withdraw_mid i s))
      | WithdrawPending acc =>
          default []
            (acc sender (pendingReturns_at s sender)
               (withdrawPending_mid sender s))
      | _ => []
      end
  end.

(** The ids, in increasing order, of the invoices issued by [a] and of
    those addressed to [a]. *)
Definition issued_by (s : State) (a : address) : list Z :=
  filter (λ i, issuer (invoices_at s i) = a) (seqZ 0 (nextInvoiceId s)).

Definition addressed_to (s : State) (a : address) : list Z :=
  filter (λ i, payer (invoices_at s i) = a) (seqZ 0 (nextInvoiceId s)).

(** The two indices list exactly those invoices; the zero address, which
    stands for "no payer", has no entry. *)
Definition indexed (s : State) : Prop :=
  ∀ a, invoicesOfIssuer_at s a = issued_by s a ∧
       invoicesOfPayer_at s a = (if decide (a = 0) then [] else addressed_to s a).

(** ** The invoices page

    What the page computes for each invoice it shows, from the record
    [getInvoice] returned, the connected account and the
    [InvoiceWithdrawn] events it has loaded. The page compares addresses
    by their lower-cased text; here they are compared as values. The
    "Pay" button is shown when [canPay] holds and pays [remaining]; the
    "Withdraw" button is shown when [canWithdraw] holds. *)

Definition remaining (invoice : Invoice) : Z :=
  amount invoice - paidAmount invoice.

Definition isIssuer (connectedAddress : address) (invoice : Invoice) : bool :=
  bool_decide (issuer invoice = connectedAddress).

Definition isPayer (connectedAddress : address) (invoice : Invoice) : bool :=
  bool_decide (payer invoice = connectedAddress)
  || bool_decide (payer invoice = 0).

Definition wasWithdrawn (withdrawnEvents : list Event) (invoice : Invoice)
    : bool :=
  existsb (λ event,
             match event with
             | InvoiceWithdrawn j _ _ => bool_decide (j = id invoice)
             | _ => false
             end) withdrawnEvents.

Definition isFullyPaid (withdrawnEvents : list Event) (invoice : Invoice)
    : bool :=
  wasWithdrawn withdrawnEvents invoice
  || bool_decide (remaining invoice = 0).

Definition canPay (connectedAddress : address) (withdrawnEvents : list Event)
    (invoice : Invoice) : bool :=
  negb (cancelled invoice)
  && negb (isFullyPaid withdrawnEvents invoice)
  && bool_decide (remaining invoice > 0)
  && (isPayer connectedAddress invoice || bool_decide (payer invoice = 0)).

Definition canWithdraw (connectedAddress : address) (invoice : Invoice)
    : bool :=
  isIssuer connectedAddress invoice && bool_decide (paidAmount invoice > 0).

(** ** The log of created invoices *)

(** The [InvoiceCreated] events of a log, in the log's order. *)
Definition createdEvents (evs : list Event) : list Event :=
  omap (λ e, match e with
             | InvoiceCreated _ _ _ _ => Some e
             | _ => None
             end) evs.

(** The event that describes the stored invoice [i]. *)
Definition created_event (s : State) (i : Z) : Event :=
  let inv := invoices_at s i in
  InvoiceCreated i (issuer inv) (payer inv) (amount inv).

(** The log holds one [InvoiceCreated] per stored invoice, the oldest for
    id 0, each with the issuer, payer and amount of the record. *)
Definition created_logged (s : State) : Prop :=
  createdEvents (events s)
  = reverse (created_event s <$> seqZ 0 (nextInvoiceId s)).

(** The ids the page collects, in the order a [Set] keeps them: those of
    the issuer index, then those of the payer index, then the ids of the
    [InvoiceCreated] events. The page takes an event's id only when
    [event.args.id] is truthy, and the integer 0 is not. *)
Definition add_id (ids : list Z) (i : Z) : list Z :=
  if bool_decide (i ∈ ids) then ids else ids ++ [i].

Definition event_ids (createdEvents : list Event) : list Z :=
  omap (λ event,
          match event with
          | InvoiceCreated i _ _ _ =>
              if bool_decide (i ≠ 0) then Some i else None
          | _ => None
          end) createdEvents.

Definition allInvoiceIds (issuerInvoiceIds payerInvoiceIds : list Z)
    (createdEvents : list Event) : list Z :=
  foldl add_id
    (foldl add_id (foldl add_id [] issuerInvoiceIds) payerInvoiceIds)
    (event_ids createdEvents).

(** ** Symbolic execution of a function body *)

Arguments MAX_UINT256 : simpl never.
Arguments MAX_ADDRESS : simpl never.

Ltac unfold_M :=
  unfold call, callback, exec, call_body, call_value, callback_body,
    callback_value, createInvoice, payInvoice, withdraw, cancelInvoice,
    withdrawPending, getInvoice, getRemainingAmount, receive,
    transferOwnership, renounceOwnership, _checkOwner, _transferOwnership,
    sendValue, invoice_field, emit, checked_add, checked_sub, require,
    mbind, M_bind, bind, mret, M_ret, ret, throw, gets, get, modify,
    invoices_at, pendingReturns_at, set_paidAmount, set_cancelled in *.

Ltac simpl_M :=
  cbn in *;
  unfold set_paidAmount, set_cancelled, invoices_at, pendingReturns_at in *;
  cbn in *; rewrite ?lookup_insert_eq in *; cbn in *.

Ltac run_M :=
  unfold_M;
  repeat (simpl_M;
          first [ case_bool_decide
                | match goal with
                  | |- context [negb ?b] => destruct b eqn:?
                  | |- context [if ?b then _ else _] => destruct b eqn:?
                  | |- context [match ?x with Some _ => _ | None => _ end] =>
                      lazymatch type of x with
                      | option (list (Z * Callback)) => destruct x eqn:?
                      end
                  end ]);
  simpl_M.

Ltac ok_tac :=
  split; cbn in *; intros; first [done | lia | congruence | tauto].

(** Closed goals about calls on concrete states: evaluate and compare. *)
Ltac by_eval :=
  vm_compute; repeat split; try (intros ?; discriminate); try exact I;
  try reflexivity.

(** Reading a field of a state built from storage writes. *)
Ltac read_state :=
  unfold invoices_at, pendingReturns_at in *; cbn;
  rewrite ?lookup_insert_eq; cbn.

(** * Lemmas *)

Lemma MAX_UINT256_pos : 0 < MAX_UINT256.
Proof. reflexivity. Qed.

(** ** Sums over a mapping *)

Section msum.
Context {V : Type} (f : V → Z).
Implicit Types m : gmap Z V.

Lemma msum_empty : msum f ∅ = 0.
Proof. unfold msum. by rewrite map_fold_empty. Qed.

Lemma msum_insert_fresh m k v :
  m !! k = None → msum f (<[k := v]> m) = f v + msum f m.
Proof.
  intros Hk. unfold msum.
  rewrite map_fold_insert_L; [done | intros; lia | done].
Qed.

Lemma msum_delete m k v :
  m !! k = Some v → msum f m = f v + msum f (delete k m).
Proof.
  intros Hk. rewrite <- (insert_delete_id m k v) at 1 by done.
  apply msum_insert_fresh, lookup_delete_eq.
Qed.

Lemma msum_insert m k v :
  msum f (<[k := v]> m) = msum f m - from_option f 0 (m !! k) + f v.
Proof.
  destruct (m !! k) as [w|] eqn:Hk; simpl.
  - rewrite <- insert_delete_eq.
    rewrite msum_insert_fresh by apply lookup_delete_eq.
    rewrite (msum_delete m k w) by done. lia.
  - rewrite msum_insert_fresh by done. lia.
Qed.

Lemma msum_nonneg m :
  (∀ k v, m !! k = Some v → 0 ≤ f v) → 0 ≤ msum f m.
Proof.
  induction m as [|k v m Hk IH] using map_ind; intros Hm.
  - by rewrite msum_empty.
  - rewrite msum_insert_fresh by done.
    assert (0 ≤ f v) by (apply (Hm k); by rewrite lookup_insert_eq).
    assert (0 ≤ msum f m); [|lia].
    apply IH. intros k' v' Hk'. apply (Hm k').
    rewrite lookup_insert_ne; [done | congruence].
Qed.

Lemma msum_lookup_le m k v :
  (∀ k v, m !! k = Some v → 0 ≤ f v) → m !! k = Some v → f v ≤ msum f m.
Proof.
  intros Hm Hk. rewrite (msum_delete m k v) by done.
  assert (0 ≤ msum f (delete k m)); [|lia].
  apply msum_nonneg. intros k' v' Hk'.
  apply lookup_delete_Some in Hk' as [_ Hk']. eauto.
Qed.
End msum.

(** ** Storage writes, [wf] and [held] *)

Lemma wf_init _owner : wf (init _owner).
Proof.
  pose proof MAX_UINT256_pos.
  split; cbn; try done; try lia.
  intros i. rewrite lookup_empty. split; [by intros [? ?] | lia].
Qed.

Lemma Inv_init _owner : Inv (init _owner).
Proof. split; [apply wf_init | done | done]. Qed.

Lemma wf_set_invoice s i inv inv' :
  wf s → invoices s !! i = Some inv → invoice_ok i inv' →
  wf (set_invoice i inv' s).
Proof.
  intros [Hn Hd Hv Hp] Hi Hok. split; cbn; try done.
  - intros j. rewrite <- Hd, lookup_insert. case_decide; subst; [|done].
    rewrite Hi. split; eauto.
  - intros j w. rewrite lookup_insert. case_decide; subst; [|by apply Hv].
    by intros [= <-].
Qed.

Lemma wf_set_pendingReturns s a v :
  wf s → 0 ≤ v → wf (set_pendingReturns a v s).
Proof.
  intros [Hn Hd Hv Hp] Hv0. split; cbn; try done.
  intros b w. rewrite lookup_insert. case_decide; subst; [|by apply Hp].
  by intros [= <-].
Qed.

Lemma wf_ext s s' :
  nextInvoiceId s' = nextInvoiceId s → invoices s' = invoices s →
  pendingReturns s' = pendingReturns s → wf s → wf s'.
Proof. intros Hn Hi Hp [? ? ? ?]. split; rewrite ?Hn, ?Hi, ?Hp; done. Qed.

Lemma wf_new_invoice s inv :
  wf s → nextInvoiceId s + 1 ≤ MAX_UINT256 →
  invoice_ok (nextInvoiceId s) inv →
  wf (set_invoice (nextInvoiceId s) inv
        (set_nextInvoiceId (nextInvoiceId s + 1) s)).
Proof.
  intros [Hn Hd Hv Hp] Hle Hok. split; cbn; try done; try lia.
  - intros j. rewrite lookup_insert. case_decide; subst.
    + split; [lia | eauto].
    + rewrite Hd. lia.
  - intros j w. rewrite lookup_insert. case_decide; subst; [|by apply Hv].
    by intros [= <-].
Qed.

Lemma wf_set_invoiceMetadata s i md : wf s → wf (set_invoiceMetadata i md s).
Proof. by intros [? ? ? ?]. Qed.

Lemma wf_push_invoicesOfIssuer s a i : wf s → wf (push_invoicesOfIssuer a i s).
Proof. by intros [? ? ? ?]. Qed.

Lemma wf_push_invoicesOfPayer s a i : wf s → wf (push_invoicesOfPayer a i s).
Proof. by intros [? ? ? ?]. Qed.

Lemma wf_set_balance s b : wf s → wf (set_balance b s).
Proof. by intros [? ? ? ?]. Qed.

Lemma wf_add_event s e : wf s → wf (add_event e s).
Proof. by intros [? ? ? ?]. Qed.

Lemma held_set_invoice s i inv' :
  held (set_invoice i inv' s) =
  held s - from_option paidAmount 0 (invoices s !! i) + paidAmount inv'.
Proof. unfold held. cbn. rewrite msum_insert. lia. Qed.

Lemma held_set_pendingReturns s a v :
  held (set_pendingReturns a v s) =
  held s - default 0 (pendingReturns s !! a) + v.
Proof.
  unfold held. cbn. rewrite msum_insert.
  destruct (pendingReturns s !! a); cbn; lia.
Qed.

Lemma held_set_nextInvoiceId s n : held (set_nextInvoiceId n s) = held s.
Proof. done. Qed.

Lemma held_set_invoiceMetadata s i md :
  held (set_invoiceMetadata i md s) = held s.
Proof. done. Qed.

Lemma held_push_invoicesOfIssuer s a i :
  held (push_invoicesOfIssuer a i s) = held s.
Proof. done. Qed.

Lemma held_push_invoicesOfPayer s a i :
  held (push_invoicesOfPayer a i s) = held s.
Proof. done. Qed.

Lemma held_set_balance s b : held (set_balance b s) = held s.
Proof. done. Qed.

Lemma held_add_event s e : held (add_event e s) = held s.
Proof. done. Qed.

Lemma wf_paid_at s i inv :
  wf s → invoices s !! i = Some inv →
  0 ≤ paidAmount inv ≤ msum paidAmount (invoices s).
Proof.
  intros Hw Hi. split; [apply (wf_invoice s Hw) in Hi; destruct Hi; lia|].
  apply (msum_lookup_le paidAmount _ i inv); [|done].
  intros k v Hk. apply (wf_invoice s Hw) in Hk. destruct Hk. lia.
Qed.

Lemma wf_pending_at s a :
  wf s →
  0 ≤ default 0 (pendingReturns s !! a) ≤ msum (λ v, v) (pendingReturns s).
Proof.
  intros Hw. destruct (pendingReturns s !! a) as [v|] eqn:Ha; cbn.
  - split; [by apply (wf_pending s Hw a)|].
    apply (msum_lookup_le (λ v, v) _ a v); [apply (wf_pending s Hw) | done].
  - split; [done|]. apply msum_nonneg, (wf_pending s Hw).
Qed.

Lemma wf_paid_sum s : wf s → 0 ≤ msum paidAmount (invoices s).
Proof.
  intros Hw. apply msum_nonneg. intros k v Hk.
  apply (wf_invoice s Hw) in Hk. destruct Hk. lia.
Qed.

Lemma wf_absent s i :
  wf s → invoices s !! i = None → ¬ (0 ≤ i < nextInvoiceId s).
Proof.
  intros Hw Hi Hr. apply (wf_dom s Hw) in Hr. rewrite Hi in Hr.
  by destruct Hr.
Qed.

(** An invoice's holdings and an account's pending return are both within
    what the contract holds. *)
Lemma Inv_bounds s i inv a :
  Inv s → invoices s !! i = Some inv →
  0 ≤ paidAmount inv ∧ 0 ≤ default 0 (pendingReturns s !! a) ∧
  paidAmount inv + default 0 (pendingReturns s !! a) ≤ held s ∧
  held s ≤ balance s ∧ balance s ≤ MAX_UINT256.
Proof.
  intros [Hw Hs Hb] Hi.
  pose proof (wf_paid_at s i inv Hw Hi).
  pose proof (wf_pending_at s a Hw). unfold held in *. lia.
Qed.

Lemma wf_set_owner s a : wf s → wf (set_owner a s).
Proof. by intros [? ? ? ?]. Qed.

Lemma held_set_owner s a : held (set_owner a s) = held s.
Proof. done. Qed.

Lemma Inv_add_event s e : Inv s → Inv (add_event e s).
Proof. intros [? ? ?]. split; [by apply wf_add_event | done | done]. Qed.

Lemma set_balance_id s : set_balance (balance s) s = s.
Proof. by destruct s. Qed.

Lemma state_eq s s' :
  owner s = owner s' →
  nextInvoiceId s = nextInvoiceId s' → invoices s = invoices s' →
  invoiceMetadata s = invoiceMetadata s' →
  pendingReturns s = pendingReturns s' →
  invoicesOfIssuer s = invoicesOfIssuer s' →
  invoicesOfPayer s = invoicesOfPayer s' →
  balance s = balance s' → events s = events s' → s = s'.
Proof. destruct s, s'; cbn; intros; by subst. Qed.

Ltac state_eq_tac :=
  apply state_eq; cbn; rewrite ?insert_insert_eq; try done; try lia.

(** ** Reads in a state that satisfies the invariant *)

Lemma Inv_invoices_at s i :
  Inv s → 0 ≤ i < nextInvoiceId s →
  invoices s !! i = Some (invoices_at s i) ∧ invoice_ok i (invoices_at s i).
Proof.
  intros [Hw _ _] Hi. apply (wf_dom s Hw) in Hi as [inv Hi].
  unfold invoices_at. rewrite Hi. split; [done|]. by apply (wf_invoice s Hw).
Qed.

Lemma Inv_issuer_iff s i :
  Inv s → issuer (invoices_at s i) ≠ 0 ↔ 0 ≤ i < nextInvoiceId s.
Proof.
  intros HI. split.
  - intros Hiss. apply (wf_dom s (inv_wf s HI)).
    unfold invoices_at in Hiss. by destruct (invoices s !! i).
  - intros Hi. by destruct (Inv_invoices_at s i HI Hi) as [_ []].
Qed.

Lemma Inv_paid_range s i :
  Inv s → 0 ≤ paidAmount (invoices_at s i) ≤ amount (invoices_at s i).
Proof.
  intros [Hw _ _]. unfold invoices_at.
  destruct (invoices s !! i) as [inv|] eqn:Hi; cbn; [|done].
  by destruct (wf_invoice s Hw i inv Hi).
Qed.

Lemma Inv_pending_range s a :
  Inv s → 0 ≤ pendingReturns_at s a ≤ balance s.
Proof.
  intros HI. pose proof (wf_pending_at s a (inv_wf s HI)).
  pose proof (wf_paid_sum s (inv_wf s HI)).
  pose proof (inv_solvent s HI). unfold held, pendingReturns_at in *. lia.
Qed.

Lemma invoices_at_absent s i :
  Inv s → ¬ (0 ≤ i < nextInvoiceId s) → invoices_at s i = zero_invoice.
Proof.
  intros HI Hi. unfold invoices_at.
  destruct (invoices s !! i) as [inv|] eqn:Hl; [|done].
  destruct Hi. apply (wf_dom s (inv_wf s HI)). by rewrite Hl.
Qed.

Lemma invoices_at_set_invoice s i x j :
  invoices_at (set_invoice i x s) j
  = if decide (i = j) then x else invoices_at s j.
Proof.
  unfold invoices_at. cbn. rewrite lookup_insert. by case_decide.
Qed.

Lemma pendingReturns_at_set s a v b :
  pendingReturns_at (set_pendingReturns a v s) b
  = if decide (a = b) then v else pendingReturns_at s b.
Proof.
  unfold pendingReturns_at. cbn. rewrite lookup_insert. by case_decide.
Qed.

(** ** The functions without a transfer *)

Lemma Inv_payInvoice s sender v i :
  Inv s → 0 ≤ v → balance s + v ≤ MAX_UINT256 →
  Inv (call sender (PayInvoice v i) s).1.
Proof.
  intros HI Hv Hb.
  destruct (invoices s !! i) as [inv|] eqn:Hi.
  - pose proof (wf_invoice s (inv_wf s HI) i inv Hi) as [? ? ? ?].
    pose proof (Inv_bounds s i inv sender HI Hi).
    destruct HI as [Hw Hs Hbal].
    run_M; rewrite ?Hi in *; cbn in *; try done.
    all: split; rewrite ?held_add_event, ?held_set_invoice; cbn; rewrite ?Hi;
      rewrite ?held_set_pendingReturns, ?held_set_balance; cbn; try lia.
    all: apply wf_add_event, (wf_set_invoice _ i inv); try done;
      try (ok_tac).
    all: try apply wf_set_pendingReturns; try lia; by apply wf_set_balance.
  - run_M; rewrite ?Hi in *; cbn in *; done.
Qed.

Lemma Inv_createInvoice s sender p a d md :
  Inv s → sender ≠ 0 → is_uint256 a →
  Inv (call sender (CreateInvoice p a d md) s).1.
Proof.
  intros HI Hs [Ha0 Ha].
  destruct (invoices s !! nextInvoiceId s) as [inv|] eqn:Hi.
  { destruct HI as [Hw _ _]. apply mk_is_Some, (wf_dom s Hw) in Hi. lia. }
  destruct HI as [Hw Hsol Hbal].
  run_M; try done.
  all: split; cbn; rewrite ?Z.add_0_r; try done.
  all: rewrite ?held_add_event, ?held_push_invoicesOfPayer,
         ?held_push_invoicesOfIssuer, ?held_set_invoiceMetadata,
         ?held_set_invoice; cbn; rewrite ?Hi; cbn;
       rewrite ?held_set_nextInvoiceId, ?held_set_balance; try lia.
  all: apply wf_add_event; try apply wf_push_invoicesOfPayer;
       apply wf_push_invoicesOfIssuer, wf_set_invoiceMetadata.
  all: apply (wf_new_invoice (set_balance _ s));
       [by apply wf_set_balance | done | ok_tac].
Qed.

Lemma Inv_cancelInvoice s sender i :
  Inv s → Inv (call sender (CancelInvoice i) s).1.
Proof.
  intros HI.
  destruct (invoices s !! i) as [inv|] eqn:Hi.
  - pose proof (wf_invoice s (inv_wf s HI) i inv Hi) as [? ? ? ?].
    pose proof (Inv_bounds s i inv (payer inv) HI Hi).
    destruct HI as [Hw Hs Hbal].
    run_M; rewrite ?Hi in *; cbn in *; try done.
    all: split; rewrite ?held_add_event, ?held_set_invoice; cbn;
      rewrite ?lookup_insert_eq; cbn;
      rewrite ?held_set_pendingReturns, ?held_set_invoice; cbn; rewrite ?Hi;
      rewrite ?held_set_balance; cbn; try lia.
    + apply (wf_ext (set_invoice i (with_paidAmount 0 (with_cancelled true inv))
               (set_pendingReturns (payer inv)
                  (default 0 (pendingReturns s !! payer inv) + paidAmount inv)
                  s))); cbn; rewrite ?insert_insert_eq; try done.
      apply (wf_set_invoice _ i inv); [|done|ok_tac].
      apply wf_set_pendingReturns; [done | lia].
    + apply wf_add_event, (wf_set_invoice _ i inv); [|done|ok_tac].
      by apply wf_set_balance.
    + apply wf_add_event, (wf_set_invoice _ i inv); [|done|ok_tac].
      by apply wf_set_balance.
  - run_M; rewrite ?Hi in *; cbn in *; done.
Qed.

Lemma Inv_receive s sender v :
  Inv s → 0 ≤ v → balance s + v ≤ MAX_UINT256 →
  Inv (call sender (Receive v) s).1.
Proof.
  intros [Hw Hs Hbal] Hv Hb. run_M.
  split; rewrite ?held_set_balance; cbn; try lia. by apply wf_set_balance.
Qed.

Lemma Inv_transferOwnership s sender o :
  Inv s → Inv (call sender (TransferOwnership o) s).1.
Proof.
  intros [Hw Hs Hbal]. run_M; try done.
  split; [| unfold held in *; cbn; lia | cbn; lia].
  by apply wf_add_event, (wf_set_owner (set_balance _ s)), wf_set_balance.
Qed.

Lemma Inv_renounceOwnership s sender :
  Inv s → Inv (call sender RenounceOwnership s).1.
Proof.
  intros [Hw Hs Hbal]. run_M; try done.
  split; [| unfold held in *; cbn; lia | cbn; lia].
  by apply wf_add_event, (wf_set_owner (set_balance _ s)), wf_set_balance.
Qed.

(** *** What such a call returns *)

Lemma payInvoice_run s sender v i :
  Inv s → 0 ≤ v → balance s + v ≤ MAX_UINT256 →
  call sender (PayInvoice v i) s =
    let inv := invoices_at s i in
    if bool_decide (v ≤ 0) then (s, inl InvalidAmount)
    else if bool_decide (issuer inv = 0) then (s, inl InvoiceNotFound)
    else if cancelled inv then (s, inl InvoiceIsCancelled)
    else if bool_decide (payer inv ≠ 0 ∧ payer inv ≠ sender)
      then (s, inl UnauthorizedPayer)
    else if bool_decide (amount inv - paidAmount inv = 0)
      then (s, inl AlreadyFullyPaid)
    else (payInvoice_post sender v i s, inr ()).
Proof.
  intros HI Hv Hb. unfold payInvoice_post.
  destruct (invoices s !! i) as [inv|] eqn:Hi.
  - pose proof (wf_invoice s (inv_wf s HI) i inv Hi) as [? ? ? ? ?].
    pose proof (Inv_bounds s i inv sender HI Hi).
    destruct HI as [Hw Hs Hbal]. unfold held in *.
    run_M; rewrite ?Hi in *; cbn in *; try done; try lia; try tauto.
    all: rewrite ?Z.min_l, ?Z.min_r by lia; try done.
  - destruct HI as [Hw Hs Hbal].
    run_M; rewrite ?Hi in *; cbn in *; try done; try lia; try tauto.
Qed.

Lemma cancelInvoice_run s sender i :
  Inv s →
  call sender (CancelInvoice i) s =
    let inv := invoices_at s i in
    if bool_decide (issuer inv = 0) then (s, inl InvoiceNotFound)
    else if bool_decide (issuer inv ≠ sender) then (s, inl UnauthorizedCancel)
    else if cancelled inv then (s, inl AlreadyCancelled)
    else (cancelInvoice_post i s, inr ()).
Proof.
  intros HI. unfold cancelInvoice_post, call, exec.
  cbn [call_value]. rewrite Z.add_0_r, set_balance_id.
  destruct (invoices s !! i) as [inv|] eqn:Hi.
  - pose proof (wf_invoice s (inv_wf s HI) i inv Hi) as [? ? ? ? ?].
    pose proof (Inv_bounds s i inv (payer inv) HI Hi).
    destruct HI as [Hw Hs Hbal]. unfold held in *.
    run_M; rewrite ?Hi in *; cbn in *; try done; try lia; try tauto.
    f_equal. f_equal. state_eq_tac.
  - run_M; rewrite ?Hi in *; cbn in *; done.
Qed.

Lemma createInvoice_run s sender p a d md :
  call sender (CreateInvoice p a d md) s =
    if bool_decide (a ≤ 0) then (s, inl InvalidInvoiceAmount)
    else if bool_decide (nextInvoiceId s + 1 > MAX_UINT256)
      then (s, inl Panic)
    else (createInvoice_post sender p a d md s, inr ()).
Proof.
  unfold createInvoice_post, call, exec.
  cbn [call_value]. rewrite Z.add_0_r, set_balance_id.
  run_M; try done; lia.
Qed.

Lemma receive_run s sender v :
  call sender (Receive v) s = (set_balance (balance s + v) s, inr ()).
Proof. done. Qed.

Lemma transferOwnership_run s sender o :
  call sender (TransferOwnership o) s =
    if bool_decide (owner s ≠ sender)
      then (s, inl (OwnableUnauthorizedAccount sender))
    else if bool_decide (o = 0) then (s, inl (OwnableInvalidOwner 0))
    else (_transferOwnership_post o s, inr ()).
Proof.
  unfold _transferOwnership_post, call, exec.
  cbn [call_value]. rewrite Z.add_0_r, set_balance_id. run_M; done.
Qed.

Lemma renounceOwnership_run s sender :
  call sender RenounceOwnership s =
    if bool_decide (owner s ≠ sender)
      then (s, inl (OwnableUnauthorizedAccount sender))
    else (_transferOwnership_post 0 s, inr ()).
Proof.
  unfold _transferOwnership_post, call, exec.
  cbn [call_value]. rewrite Z.add_0_r, set_balance_id. run_M; done.
Qed.

Lemma getInvoice_run s i :
  getInvoice i s =
    if bool_decide (issuer (invoices_at s i) = 0)
    then (s, inl InvoiceNotFound)
    else (s, inr (invoices_at s i, invoiceMetadata_at s i)).
Proof. unfold getInvoice. run_M; done. Qed.

Lemma getRemainingAmount_run s i :
  getRemainingAmount i s =
    if bool_decide (issuer (invoices_at s i) = 0)
    then (s, inl InvoiceNotFound)
    else (s, inr (Z.max (amount (invoices_at s i)
                         - paidAmount (invoices_at s i)) 0)).
Proof.
  unfold getRemainingAmount. run_M; try done; try lia.
  all: f_equal; f_equal; lia.
Qed.

(** ** Calls back *)

Lemma callback_as_call s sender cb :
  callback sender cb s = step sender (as_call cb) s.
Proof. by destruct cb. Qed.

Lemma Inv_callback s sender cb :
  Inv s → callback_ok s sender cb → Inv (callback sender cb s).
Proof.
  intros HI (_ & Hs & Hv & Hb & Hargs). rewrite callback_as_call.
  unfold step.
  destruct cb as [p a d md | i | v | o |]; cbn [as_call callback_value] in *.
  - destruct Hargs as (_ & Ha & _). by apply Inv_createInvoice.
  - by apply Inv_cancelInvoice.
  - by apply Inv_receive.
  - by apply Inv_transferOwnership.
  - by apply Inv_renounceOwnership.
Qed.

Lemma Inv_callbacks cbs s :
  Inv s → callbacks_ok cbs s → Inv (callbacks cbs s).
Proof.
  revert s. induction cbs as [|[sender cb] cbs IH]; intros s HI Hok; [done|].
  destruct Hok as [Hc Hok]. cbn. apply IH; [by apply Inv_callback | done].
Qed.

(** A relation between states that every call back establishes holds
    between the states before and after the calls back of a recipient. *)
Lemma callbacks_rel (R : State → State → Prop) :
  (∀ s, R s s) →
  (∀ s1 s2 s3, R s1 s2 → R s2 s3 → R s1 s3) →
  (∀ s sender cb,
     Inv s → callback_ok s sender cb → R s (callback sender cb s)) →
  ∀ cbs s, Inv s → callbacks_ok cbs s → R s (callbacks cbs s).
Proof.
  intros Hrefl Htrans Hcb cbs.
  induction cbs as [|[sender cb] cbs IH]; intros s HI Hok; [apply Hrefl|].
  destruct Hok as [Hc Hok]. cbn.
  apply (Htrans _ (callback sender cb s)); [by apply Hcb|].
  apply IH; [by apply Inv_callback | done].
Qed.

(** ** The functions with a transfer *)

Lemma Inv_withdraw_mid s i :
  Inv s → issuer (invoices_at s i) ≠ 0 → Inv (withdraw_mid i s).
Proof.
  intros HI Hiss. apply (Inv_issuer_iff s i HI) in Hiss.
  destruct (Inv_invoices_at s i HI Hiss) as [Hi [? ? ? ? ?]].
  pose proof (Inv_bounds s i _ 0 HI Hi).
  destruct HI as [Hw Hs Hbal]. unfold withdraw_mid.
  split; rewrite ?held_set_balance, ?held_set_invoice; cbn; rewrite ?Hi; cbn;
    try lia.
  apply wf_set_balance, (wf_set_invoice _ i (invoices_at s i)); try done.
  ok_tac.
Qed.

Lemma Inv_withdrawPending_mid s a : Inv s → Inv (withdrawPending_mid a s).
Proof.
  intros HI. pose proof (wf_pending_at s a (inv_wf s HI)).
  pose proof (wf_paid_sum s (inv_wf s HI)).
  destruct HI as [Hw Hs Hbal]. unfold withdrawPending_mid, pendingReturns_at.
  assert (Hh : held s = msum paidAmount (invoices s)
                        + msum (λ v, v) (pendingReturns s)) by done.
  split; rewrite ?held_set_balance, ?held_set_pendingReturns; cbn; try lia.
  by apply wf_set_balance, wf_set_pendingReturns.
Qed.

Lemma withdraw_run s sender i acc :
  Inv s →
  call sender (Withdraw i acc) s =
    let inv := invoices_at s i in
    if bool_decide (issuer inv = 0) then (s, inl InvoiceNotFound)
    else if bool_decide (issuer inv ≠ sender)
      then (s, inl UnauthorizedWithdraw)
    else if bool_decide (paidAmount inv = 0) then (s, inl NoFundsToWithdraw)
    else match acc sender (paidAmount inv) (withdraw_mid i s) with
         | Some cbs => (withdraw_post sender i cbs s, inr ())
         | None => (s, inl TransferFailed)
         end.
Proof.
  intros HI. unfold withdraw_post, withdraw_mid, call, exec.
  cbn [call_value]. rewrite Z.add_0_r, set_balance_id.
  destruct (invoices s !! i) as [inv|] eqn:Hi.
  - pose proof (wf_invoice s (inv_wf s HI) i inv Hi) as [? ? ? ? ?].
    pose proof (Inv_bounds s i inv sender HI Hi).
    destruct HI as [Hw Hs Hbal]. unfold held in *.
    run_M; rewrite ?Hi in *; cbn in *; try done; try lia; congruence.
  - run_M; rewrite ?Hi in *; cbn in *; done.
Qed.

Lemma withdrawPending_run s sender acc :
  Inv s →
  call sender (WithdrawPending acc) s =
    if bool_decide (pendingReturns_at s sender = 0)
      then (s, inl NoPendingReturns)
    else match acc sender (pendingReturns_at s sender)
                 (withdrawPending_mid sender s) with
         | Some cbs => (withdrawPending_post sender cbs s, inr ())
         | None => (s, inl TransferFailed)
         end.
Proof.
  intros HI. unfold withdrawPending_post, withdrawPending_mid, call, exec.
  cbn [call_value]. rewrite Z.add_0_r, set_balance_id.
  pose proof (wf_pending_at s sender (inv_wf s HI)).
  pose proof (wf_paid_sum s (inv_wf s HI)).
  destruct HI as [Hw Hs Hbal]. unfold held in *.
  run_M; try done; try lia; congruence.
Qed.

Lemma Inv_withdraw s sender i acc :
  Inv s →
  recipient_ok acc sender (paidAmount (invoices_at s i)) (withdraw_mid i s) →
  Inv (call sender (Withdraw i acc) s).1.
Proof.
  intros HI Hrec. rewrite withdraw_run by done. cbn zeta.
  unfold recipient_ok in Hrec.
  repeat case_bool_decide; try done.
  destruct (acc _ _ _) as [cbs|]; [|done].
  apply Inv_add_event, Inv_callbacks; [by apply Inv_withdraw_mid | done].
Qed.

Lemma Inv_withdrawPending s sender acc :
  Inv s →
  recipient_ok acc sender (pendingReturns_at s sender)
    (withdrawPending_mid sender s) →
  Inv (call sender (WithdrawPending acc) s).1.
Proof.
  intros HI Hrec. rewrite withdrawPending_run by done.
  unfold recipient_ok in Hrec.
  case_bool_decide; try done.
  destruct (acc _ _ _) as [cbs|]; [|done].
  apply Inv_add_event, Inv_callbacks; [by apply Inv_withdrawPending_mid | done].
Qed.

(** ** The invariant holds in every reachable state *)

Lemma Inv_step s sender c : Inv s → call_ok s sender c → Inv (step sender c s).
Proof.
  intros HI (Hs & Hs0 & Hv & Hb & Hargs). unfold step.
  destruct c as [p a d md | v i | i acc | i | acc | v | o |];
    cbn in Hv, Hb, Hargs.
  - destruct Hargs as (_ & Ha & _). by apply Inv_createInvoice.
  - by apply Inv_payInvoice.
  - destruct Hargs as [_ Hrec]. by apply Inv_withdraw.
  - apply Inv_cancelInvoice, HI.
  - by apply Inv_withdrawPending.
  - by apply Inv_receive.
  - by apply Inv_transferOwnership.
  - by apply Inv_renounceOwnership.
Qed.

Lemma reachable_Inv s : reachable s → Inv s.
Proof.
  induction 1 as [|s sender c _ IH Hok]; [apply Inv_init | by apply Inv_step].
Qed.

Lemma reachable_run cs s : reachable s → run_ok cs s → reachable (run cs s).
Proof.
  revert s. induction cs as [|[sender c] cs IH]; intros s Hr Hok; [done|].
  destruct Hok as [Hc Hok]. cbn. apply IH; [|done]. by constructor.
Qed.

(** ** The effect of one call, case by case *)

(** Splits a call in a state that satisfies the invariant into its
    outcomes: the state is unchanged, or it is the function's post-state. *)
Ltac call_cases HI Hv Hb :=
  unfold step;
  first [ rewrite createInvoice_run
        | rewrite (payInvoice_run _ _ _ _ HI Hv Hb)
        | rewrite (withdraw_run _ _ _ _ HI)
        | rewrite (cancelInvoice_run _ _ _ HI)
        | rewrite (withdrawPending_run _ _ _ HI)
        | rewrite receive_run
        | rewrite transferOwnership_run
        | rewrite renounceOwnership_run ];
  cbn zeta; cbn [fst snd];
  repeat first
    [ case_bool_decide
    | match goal with
      | |- context [if cancelled ?x then _ else _] => destruct (cancelled x) eqn:?
      | |- context [match ?x with Some _ => _ | None => _ end] =>
          lazymatch type of x with
          | option (list (Z * Callback)) => destruct x eqn:?
          end
      end ];
  cbn [fst snd];
  unfold createInvoice_post, payInvoice_post, cancelInvoice_post,
    _transferOwnership_post;
  repeat case_bool_decide.

Ltac read_at :=
  cbn [invoices_at]; rewrite ?invoices_at_set_invoice, ?pendingReturns_at_set;
  unfold invoices_at, pendingReturns_at, invoiceMetadata_at; cbn;
  rewrite ?lookup_insert; repeat case_decide; subst; cbn.

(** *** Calls back leave the invoices' terms alone and pay nothing in *)

Lemma keeps_refl i s : keeps i s s.
Proof. intros Hi. cbn zeta. repeat split; done || lia. Qed.

Lemma keeps_trans i s1 s2 s3 : keeps i s1 s2 → keeps i s2 s3 → keeps i s1 s3.
Proof.
  intros H12 H23 Hi. cbn zeta.
  destruct (H12 Hi) as (E1 & E2 & E3 & E4 & E5 & E6 & E7 & E8).
  destruct H23 as (F1 & F2 & F3 & F4 & F5 & F6 & F7 & F8); [lia|].
  rewrite F1, F2, F3, F4, F5, F6. repeat split; try done; auto; lia.
Qed.

Lemma keeps_add_event i s e : keeps i s (add_event e s).
Proof. intros Hi. cbn zeta. repeat split; done || lia. Qed.

Lemma keeps_withdraw_mid i s j : keeps i s (withdraw_mid j s).
Proof.
  intros Hi. cbn zeta. unfold withdraw_mid.
  read_at; repeat split; done || lia.
Qed.

Lemma keeps_withdrawPending_mid i s a : keeps i s (withdrawPending_mid a s).
Proof. intros Hi. cbn zeta. repeat split; done || lia. Qed.

Lemma callback_keeps i s sender cb :
  Inv s → callback_ok s sender cb → keeps i s (callback sender cb s).
Proof.
  intros HI (_ & _ & Hv & Hb & _) Hi. cbn zeta. rewrite callback_as_call.
  destruct cb as [p a d md | j | v | o |]; cbn [as_call callback_value] in *.
  all: call_cases HI Hv Hb.
  all: read_at; repeat split; try done; try lia.
Qed.

Lemma callbacks_keep i cbs s :
  Inv s → callbacks_ok cbs s → keeps i s (callbacks cbs s).
Proof.
  apply (callbacks_rel (keeps i));
    [apply keeps_refl | apply keeps_trans | apply callback_keeps].
Qed.

Lemma no_payment_refl s : no_payment s s.
Proof. split; intros; lia. Qed.

Lemma no_payment_trans s1 s2 s3 :
  no_payment s1 s2 → no_payment s2 s3 → no_payment s1 s3.
Proof.
  intros [P12 Q12] [P23 Q23]. split.
  - intros i. specialize (P12 i). specialize (P23 i). lia.
  - intros a. specialize (Q12 a). specialize (Q23 a). lia.
Qed.

Lemma callback_no_payment s sender cb :
  Inv s → callback_ok s sender cb → no_payment s (callback sender cb s).
Proof.
  intros HI (_ & _ & Hv & Hb & _). rewrite callback_as_call.
  assert (Hnone : invoices s !! nextInvoiceId s = None).
  { apply eq_None_not_Some. rewrite (wf_dom s (inv_wf s HI)). lia. }
  destruct cb as [p a d md | j | v | o |]; cbn [as_call callback_value] in *.
  all: try pose proof (Inv_paid_range s j HI).
  all: call_cases HI Hv Hb; try apply no_payment_refl.
  all: split; intros; read_at; unfold invoices_at, pendingReturns_at in *;
    rewrite ?Hnone in *; cbn in *; lia.
Qed.

Lemma callbacks_no_payment cbs s :
  Inv s → callbacks_ok cbs s → no_payment s (callbacks cbs s).
Proof.
  apply (callbacks_rel no_payment);
    [ apply no_payment_refl | apply no_payment_trans
    | apply callback_no_payment ].
Qed.

(** Calls back leave what the contract owes as it is and add to its
    balance the ether they bring. *)
Lemma callback_balance s sender cb :
  Inv s → callback_ok s sender cb →
  balance (callback sender cb s) = balance s + callback_value cb ∧
  held (callback sender cb s) = held s.
Proof.
  intros HI (_ & _ & Hv & Hb & _). rewrite callback_as_call.
  assert (Hnone : invoices s !! nextInvoiceId s = None).
  { apply eq_None_not_Some. rewrite (wf_dom s (inv_wf s HI)). lia. }
  destruct cb as [p a d md | j | v | o |]; cbn [as_call callback_value] in *.
  all: call_cases HI Hv Hb; try (split; [cbn; lia | done]).
  all: rewrite ?held_add_event, ?held_push_invoicesOfPayer,
         ?held_push_invoicesOfIssuer, ?held_set_invoiceMetadata,
         ?held_set_balance, ?held_set_invoice; cbn;
       rewrite ?lookup_insert_eq; cbn;
       rewrite ?held_set_pendingReturns, ?held_set_invoice,
         ?held_set_nextInvoiceId, ?held_set_balance; cbn.
  all: unfold invoices_at, pendingReturns_at in *; rewrite ?Hnone;
    try destruct (invoices s !! j); cbn in *; split; lia.
Qed.

Lemma callbacks_balance cbs s :
  Inv s → callbacks_ok cbs s →
  balance (callbacks cbs s) = balance s + sent_back cbs ∧
  held (callbacks cbs s) = held s.
Proof.
  revert s. induction cbs as [|[sender cb] cbs IH]; intros s HI Hok.
  { cbn. split; [lia | done]. }
  destruct Hok as [Hc Hok].
  destruct (callback_balance s sender cb HI Hc) as [Hb Hh].
  destruct (IH (callback sender cb s)) as [Hb' Hh'];
    [by apply Inv_callback | done |].
  cbn [callbacks]. rewrite Hb', Hh', Hb, Hh.
  change (sent_back ((sender, cb) :: cbs))
    with (callback_value cb + sent_back cbs).
  split; [lia | done].
Qed.

(** *** A transfer that the recipient accepts *)

Lemma withdraw_accepted s sender i acc cbs :
  Inv s →
  let inv := invoices_at s i in
  issuer inv ≠ 0 → issuer inv = sender → paidAmount inv > 0 →
  acc sender (paidAmount inv) (withdraw_mid i s) = Some cbs →
  callbacks_ok cbs (withdraw_mid i s) →
  let s' := withdraw_post sender i cbs s in
  call sender (Withdraw i acc) s = (s', inr ()) ∧
  Inv s' ∧ keeps i s s' ∧
  paidAmount (invoices_at s' i) = 0 ∧
  balance s' = balance s - paidAmount inv + sent_back cbs.
Proof.
  intros HI inv Hiss Hs Hp Hacc Hok s'.
  assert (HIm : Inv (withdraw_mid i s)) by (by apply Inv_withdraw_mid).
  assert (HI' : Inv s').
  { by apply Inv_add_event, Inv_callbacks. }
  split.
  { rewrite withdraw_run by done. cbn zeta. fold inv. rewrite Hacc.
    repeat case_bool_decide; try done; lia. }
  split; [done|]. split.
  { apply (keeps_trans i s (withdraw_mid i s)); [apply keeps_withdraw_mid|].
    apply (keeps_trans i _ (callbacks cbs (withdraw_mid i s)));
      [by apply callbacks_keep | apply keeps_add_event]. }
  split.
  { destruct (callbacks_no_payment cbs _ HIm Hok) as [Hle _].
    specialize (Hle i). pose proof (Inv_paid_range s' i HI') as Hge.
    assert (Hz : paidAmount (invoices_at (withdraw_mid i s) i) = 0).
    { unfold withdraw_mid. by read_at. }
    change (invoices_at s' i)
      with (invoices_at (callbacks cbs (withdraw_mid i s)) i) in *.
    lia. }
  destruct (callbacks_balance cbs _ HIm Hok) as [Hb _].
  change (balance s') with (balance (callbacks cbs (withdraw_mid i s))).
  rewrite Hb. done.
Qed.

Lemma withdrawPending_accepted s sender acc cbs :
  Inv s →
  let x := pendingReturns_at s sender in
  x > 0 →
  acc sender x (withdrawPending_mid sender s) = Some cbs →
  callbacks_ok cbs (withdrawPending_mid sender s) →
  let s' := withdrawPending_post sender cbs s in
  call sender (WithdrawPending acc) s = (s', inr ()) ∧
  Inv s' ∧
  balance s' = balance s - x + sent_back cbs ∧
  (∀ i, paidAmount (invoices_at s' i) ≤ paidAmount (invoices_at s i)) ∧
  (∀ a, a ≠ sender → pendingReturns_at s a ≤ pendingReturns_at s' a).
Proof.
  intros HI x Hx Hacc Hok s'.
  assert (HIm : Inv (withdrawPending_mid sender s))
    by (by apply Inv_withdrawPending_mid).
  assert (HI' : Inv s').
  { by apply Inv_add_event, Inv_callbacks. }
  split.
  { rewrite withdrawPending_run by done. fold x. rewrite Hacc.
    case_bool_decide; [lia | done]. }
  split; [done|].
  destruct (callbacks_balance cbs _ HIm Hok) as [Hb _].
  destruct (callbacks_no_payment cbs _ HIm Hok) as [Hle Hge].
  split; [|split].
  - change (balance s')
      with (balance (callbacks cbs (withdrawPending_mid sender s))).
    rewrite Hb. done.
  - intros i. apply Hle.
  - intros a Ha. specialize (Hge a).
    change (pendingReturns_at s' a)
      with (pendingReturns_at (callbacks cbs (withdrawPending_mid sender s)) a).
    assert (Hm : pendingReturns_at (withdrawPending_mid sender s) a
                 = pendingReturns_at s a).
    { unfold withdrawPending_mid. by read_at. }
    by rewrite Hm in Hge.
Qed.

(** ** The contract on small inputs *)

Example create_then_overpay :
  invoices_at overpaid 0 = mkInvoice 0 alice bob 100 100 0 false ∧
  pendingReturns_at overpaid bob = 50 ∧ balance overpaid = 150.
Proof. by_eval. Qed.

Example pay_60_then_40 :
  paidAmount (invoices_at fully_paid 0) = 100 ∧
  (getRemainingAmount 0 fully_paid).2 = inr 0 ∧
  (call bob (PayInvoice 1 0) fully_paid).2 = inl AlreadyFullyPaid.
Proof. by_eval. Qed.

Example cancel_with_named_payer :
  let s := step alice (CancelInvoice 0) part_paid in
  invoices_at s 0 = mkInvoice 0 alice bob 100 0 0 true ∧
  pendingReturns_at s bob = 30.
Proof. by_eval. Qed.

Example cancel_open_invoice :
  invoices_at open_cancelled 0 = mkInvoice 0 alice 0 100 30 0 true ∧
  pendingReturns_at open_cancelled carol = 0.
Proof. by_eval. Qed.

Example only_issuer_withdraws :
  (call bob (Withdraw 0 accept_all) fully_paid).2 = inl UnauthorizedWithdraw ∧
  (call bob (CancelInvoice 0) fully_paid).2 = inl UnauthorizedCancel ∧
  (call carol (PayInvoice 5 0) invoiced).2 = inl UnauthorizedPayer.
Proof. by_eval. Qed.

Example refused_transfer :
  call alice (Withdraw 0 refuse_all) fully_paid
    = (fully_paid, inl TransferFailed).
Proof. by_eval. Qed.

(** [alice]'s code cancels invoice 1 while invoice 0 is paid out to it:
    the 20 that invoice 1 held are now [bob]'s to take back. *)
Example cancel_inside_withdraw :
  let s := step alice (Withdraw 0 (cancels 1)) two_invoices in
  (call alice (Withdraw 0 (cancels 1)) two_invoices).2 = inr () ∧
  paidAmount (invoices_at s 0) = 0 ∧
  invoices_at s 1 = mkInvoice 1 alice bob 50 0 0 true ∧
  pendingReturns_at s bob = 20 ∧ balance s = 20 ∧
  events s = [InvoiceWithdrawn 0 alice 100; InvoiceCancelled 1;
              InvoicePaid 1 bob 20 20; InvoicePaid 0 bob 100 100;
              InvoiceCreated 1 alice bob 50; InvoiceCreated 0 alice bob 100;
              OwnershipTransferred 0 dave].
Proof. by_eval. Qed.

(** [alice]'s code sends 1 wei back through [receive]: the contract
    holds 1 wei that it owes to nobody. *)
Example return_inside_withdraw :
  let s := step alice (Withdraw 0 (returns 1)) fully_paid in
  balance s = 1 ∧ held s = 0.
Proof. by_eval. Qed.

Example only_owner_transfers_ownership :
  (call alice (TransferOwnership bob) deployed).2
    = inl (OwnableUnauthorizedAccount alice) ∧
  (call dave (TransferOwnership 0) deployed).2 = inl (OwnableInvalidOwner 0) ∧
  owner (step dave (TransferOwnership bob) deployed) = bob ∧
  owner (step dave RenounceOwnership deployed) = 0.
Proof. by_eval. Qed.


(** ** The example runs are reachable *)

Lemma deployed_reachable : reachable deployed.
Proof. apply reachable_init; by_eval. Qed.

Lemma invoiced_reachable : reachable invoiced.
Proof. apply reachable_run; [apply deployed_reachable | by_eval]. Qed.

Lemma overpaid_reachable : reachable overpaid.
Proof. apply reachable_run; [apply deployed_reachable | by_eval]. Qed.

Lemma part_paid_reachable : reachable part_paid.
Proof. apply reachable_run; [apply deployed_reachable | by_eval]. Qed.

Lemma open_paid_reachable : reachable open_paid.
Proof. apply reachable_run; [apply deployed_reachable | by_eval]. Qed.

Lemma open_cancelled_reachable : reachable open_cancelled.
Proof. apply reachable_run; [apply open_paid_reachable | by_eval]. Qed.

Lemma fully_paid_reachable : reachable fully_paid.
Proof. apply reachable_run; [apply deployed_reachable | by_eval]. Qed.

Lemma withdrawn_reachable : reachable withdrawn.
Proof. apply reachable_run; [apply fully_paid_reachable | by_eval]. Qed.

Lemma two_invoices_reachable : reachable two_invoices.
Proof. apply reachable_run; [apply deployed_reachable | by_eval]. Qed.

(** ** Where a failing body stops *)

Ltac fail_tac :=
  first [ done
        | intros [= <- <-]; first [done | lia | tauto | congruence ] ].

Lemma body_fails_before_write s sender c s1 e :
  Inv s → call_body sender c s = (s1, inl e) → e ≠ TransferFailed → s1 = s.
Proof.
  intros HI. revert s1 e.
  destruct c as [p a d md | v i | i acc | i | acc | v | o |].
  - intros s1 e. run_M; intros [= <- <-]; done.
  - intros s1 e.
    destruct (invoices s !! i) as [inv|] eqn:Hi.
    + pose proof (wf_invoice s (inv_wf s HI) i inv Hi) as [? ? ? ? ?].
      pose proof (Inv_bounds s i inv sender HI Hi).
      run_M; rewrite ?Hi in *; cbn in *; fail_tac.
    + run_M; rewrite ?Hi in *; cbn in *; fail_tac.
  - intros s1 e.
    destruct (invoices s !! i) as [inv|] eqn:Hi.
    + pose proof (wf_invoice s (inv_wf s HI) i inv Hi) as [? ? ? ? ?].
      pose proof (Inv_bounds s i inv sender HI Hi).
      run_M; rewrite ?Hi in *; cbn in *; fail_tac.
    + run_M; rewrite ?Hi in *; cbn in *; fail_tac.
  - intros s1 e.
    destruct (invoices s !! i) as [inv|] eqn:Hi.
    + pose proof (wf_invoice s (inv_wf s HI) i inv Hi) as [? ? ? ? ?].
      pose proof (Inv_bounds s i inv (payer inv) HI Hi).
      run_M; rewrite ?Hi in *; cbn in *; fail_tac.
    + run_M; rewrite ?Hi in *; cbn in *; fail_tac.
  - intros s1 e. run_M; fail_tac.
  - intros s1 e. run_M; fail_tac.
  - intros s1 e. run_M; fail_tac.
  - intros s1 e. run_M; fail_tac.
Qed.

Lemma body_transfer_failed s sender c s1 :
  Inv s → call_body sender c s = (s1, inl TransferFailed) →
  (∃ i acc, c = Withdraw i acc ∧ s1 = withdraw_mid i s ∧
            paidAmount (invoices_at s i) > 0) ∨
  (∃ acc, c = WithdrawPending acc ∧ s1 = withdrawPending_mid sender s ∧
          pendingReturns_at s sender > 0).
Proof.
  intros HI. revert s1.
  destruct c as [p a d md | v i | i acc | i | acc | v | o |]; intros s1.
  - run_M; intros [= <-]; done.
  - run_M; done.
  - intros Hb. left. exists i, acc. split; [done|]. revert Hb.
    unfold withdraw_mid.
    destruct (invoices s !! i) as [inv|] eqn:Hi.
    + pose proof (Inv_bounds s i inv sender HI Hi).
      run_M; rewrite ?Hi in *; cbn in *; try done.
      * unfold held in *. lia.
      * by intros [= <-].
    + run_M; rewrite ?Hi in *; cbn in *; done.
  - run_M; done.
  - intros Hb. right. exists acc. split; [done|]. revert Hb.
    unfold withdrawPending_mid.
    pose proof (wf_pending_at s sender (inv_wf s HI)).
    pose proof (wf_paid_sum s (inv_wf s HI)).
    pose proof (inv_solvent s HI). unfold held in *.
    run_M; try done; try lia. by intros [= <-].
  - run_M; done.
  - run_M; done.
  - run_M; done.
Qed.

(** ** Sequences of payments *)

Lemma total_nonneg p ps : Forall (may_pay p) ps → 0 ≤ total ps.
Proof.
  induction 1 as [|c ps (_ & Hc & _) _ IH]; [done|].
  change (total (c :: ps)) with (c.2 + total ps). lia.
Qed.

(** Payments that together stay within what remains are all applied in
    full. *)
Lemma run_payments s i ps :
  Inv s →
  let inv := invoices_at s i in
  issuer inv ≠ 0 → cancelled inv = false →
  Forall (may_pay (payer inv)) ps →
  paidAmount inv + total ps ≤ amount inv →
  balance s + total ps ≤ MAX_UINT256 →
  let s' := run (payments i ps) s in
  Inv s' ∧
  invoices_at s' i = with_paidAmount (paidAmount inv + total ps) inv ∧
  balance s' = balance s + total ps ∧
  nextInvoiceId s' = nextInvoiceId s.
Proof.
  revert s. induction ps as [|[c v] ps IH]; intros s HI inv Hiss Hc Hps Hle Hb s'.
  - subst s' inv. change (run (payments i []) s) with s.
    change (total []) with 0. rewrite !Z.add_0_r.
    split; [done|]. split; [by destruct (invoices_at s i) | done].
  - apply Forall_cons in Hps as [(Hc0 & Hv & Hauth) Hps]. cbn in Hc0, Hv, Hauth.
    pose proof (total_nonneg _ _ Hps) as Ht.
    change (total ((c, v) :: ps)) with (v + total ps) in Hle, Hb.
    pose proof (Inv_paid_range s i HI) as Hrange. fold inv in Hrange.
    assert (Hstep : step c (PayInvoice v i) s = payInvoice_post c v i s).
    { unfold step. rewrite payInvoice_run by (done || lia). cbn zeta.
      fold inv. rewrite Hc. repeat case_bool_decide; try done; try lia;
        tauto. }
    assert (Hinv1 : invoices_at (payInvoice_post c v i s) i
                    = with_paidAmount (paidAmount inv + v) inv).
    { unfold payInvoice_post. fold inv. rewrite Z.min_l by lia.
      by read_state. }
    assert (Hbal1 : balance (payInvoice_post c v i s) = balance s + v).
    { unfold payInvoice_post. by case_bool_decide. }
    assert (Hnext1 : nextInvoiceId (payInvoice_post c v i s)
                     = nextInvoiceId s).
    { unfold payInvoice_post. by case_bool_decide. }
    assert (HI1 : Inv (payInvoice_post c v i s)).
    { rewrite <- Hstep. apply Inv_payInvoice; (done || lia). }
    subst s'. cbn [payments map run fst snd]. rewrite Hstep.
    destruct (IH (payInvoice_post c v i s) HI1) as (HI' & Hinv' & Hbal' & Hn');
      rewrite ?Hinv1, ?Hbal1; cbn; try done; try lia.
    fold (payments i ps).
    split; [done|]. rewrite Hinv', Hbal', Hinv1, Hbal1, Hn', Hnext1. cbn.
    fold (total ps). split; [|split; [lia | done]].
    unfold with_paidAmount; cbn. f_equal. lia.
Qed.

(** * Properties of the ledger *)

(** C1: in every reachable state every invoice has
    [0 <= paidAmount <= amount]; every call keeps it so, and a successful
    [payInvoice] adds to [paidAmount] the payment capped at the remaining
    amount. *)
Theorem paid_within_amount s :
  reachable s →
  (∀ i, 0 ≤ paidAmount (invoices_at s i) ≤ amount (invoices_at s i)) ∧
  (∀ sender c i,
     call_ok s sender c →
     0 ≤ paidAmount (invoices_at (step sender c s) i)
       ≤ amount (invoices_at (step sender c s) i)) ∧
  (∀ sender v i s',
     call_ok s sender (PayInvoice v i) →
     call sender (PayInvoice v i) s = (s', inr ()) →
     paidAmount (invoices_at s' i) - paidAmount (invoices_at s i)
     = Z.min v (amount (invoices_at s i) - paidAmount (invoices_at s i))).
Proof.
  intros Hr. pose proof (reachable_Inv s Hr) as HI. repeat split.
  - apply Inv_paid_range, HI.
  - apply Inv_paid_range, HI.
  - by apply Inv_paid_range, Inv_step.
  - by apply Inv_paid_range, Inv_step.
  - intros sender v i s' (_ & _ & Hv & Hb & _) Hcall. cbn in Hv, Hb.
    rewrite payInvoice_run in Hcall by done. cbn zeta in Hcall.
    repeat (case_bool_decide || destruct (cancelled _)); try done.
    injection Hcall as <-. unfold payInvoice_post, invoices_at at 1. cbn.
    rewrite lookup_insert_eq. cbn. lia.
Qed.

Lemma paid_within_amount_witness :
  reachable overpaid ∧
  (∀ i, 0 ≤ paidAmount (invoices_at overpaid i)
          ≤ amount (invoices_at overpaid i)).
Proof.
  split; [apply overpaid_reachable|].
  apply (paid_within_amount overpaid overpaid_reachable).
Defined.

(** C2: on an existing invoice that is not cancelled and not fully paid,
    an authorized payment of [v > 0] succeeds, adds
    [applied = min v remaining] to [paidAmount] and credits
    [v - applied] to the caller's pending returns, which are left as they
    were when nothing is in excess. *)
Theorem payInvoice_applies_min s sender v i :
  reachable s → call_ok s sender (PayInvoice v i) →
  let inv := invoices_at s i in
  let remaining := amount inv - paidAmount inv in
  let applied := Z.min v remaining in
  let s' := step sender (PayInvoice v i) s in
  issuer inv ≠ 0 → cancelled inv = false →
  payer inv = 0 ∨ payer inv = sender →
  0 < remaining → 0 < v →
  (call sender (PayInvoice v i) s).2 = inr () ∧
  paidAmount (invoices_at s' i) = paidAmount inv + applied ∧
  pendingReturns_at s' sender = pendingReturns_at s sender + (v - applied) ∧
  (v - applied = 0 → pendingReturns s' = pendingReturns s) ∧
  events s' = InvoicePaid i sender applied (paidAmount inv + applied)
                :: events s.
Proof.
  intros Hr (_ & _ & Hv & Hb & _) inv remaining applied s' Hiss Hc Hp Hrem Hv0.
  cbn in Hv, Hb. pose proof (reachable_Inv s Hr) as HI.
  subst s'. unfold step. rewrite payInvoice_run by done. cbn zeta.
  fold inv. rewrite Hc.
  repeat case_bool_decide; try done; try lia; try tauto.
  all: unfold payInvoice_post; fold inv remaining applied;
    repeat case_bool_decide; try lia.
  all: subst applied remaining inv; read_state;
    repeat split; try done; lia.
Qed.

Lemma payInvoice_applies_min_witness :
  paidAmount (invoices_at overpaid 0) = 100 ∧
  pendingReturns_at overpaid bob = 50.
Proof.
  destruct (payInvoice_applies_min invoiced bob 150 0)
    as (_ & Hpaid & Hpending & _);
    [ apply invoiced_reachable | by_eval | by_eval | by_eval
    | right; by_eval | by_eval | by_eval | ].
  split; [exact Hpaid | exact Hpending].
Defined.

(** C3: [getRemainingAmount] returns [max (amount - paidAmount) 0] for an
    invoice that exists and fails with [InvoiceNotFound] otherwise. Hence
    after an invoice of [A] is created, paid up to [A] and withdrawn by
    its issuer, [getRemainingAmount] returns [A] again, whatever the
    issuer's code called back while it was paid out. *)
Theorem remaining_reads_paidAmount s :
  reachable s →
  (∀ i inv,
     invoices s !! i = Some inv →
     getRemainingAmount i s
       = (s, inr (Z.max (amount inv - paidAmount inv) 0))) ∧
  (∀ i, invoices s !! i = None →
        getRemainingAmount i s = (s, inl InvoiceNotFound)) ∧
  (∀ iss p A d md ps acc cbs,
     call_ok s iss (CreateInvoice p A d md) →
     0 < A → nextInvoiceId s < MAX_UINT256 →
     Forall (may_pay p) ps → total ps = A →
     balance s + A ≤ MAX_UINT256 →
     let i := nextInvoiceId s in
     let s1 := step iss (CreateInvoice p A d md) s in
     let s2 := run (payments i ps) s1 in
     let s3 := step iss (Withdraw i acc) s2 in
     acc iss A (withdraw_mid i s2) = Some cbs →
     callbacks_ok cbs (withdraw_mid i s2) →
     paidAmount (invoices_at s2 i) = A ∧
     getRemainingAmount i s2 = (s2, inr 0) ∧
     (call iss (Withdraw i acc) s2).2 = inr () ∧
     getRemainingAmount i s3 = (s3, inr A)).
Proof.
  intros Hr. pose proof (reachable_Inv s Hr) as HI. split; [|split].
  - intros i inv Hi. rewrite getRemainingAmount_run. unfold invoices_at.
    rewrite Hi. cbn.
    destruct (wf_invoice s (inv_wf s HI) i inv Hi).
    by case_bool_decide.
  - intros i Hi. rewrite getRemainingAmount_run. unfold invoices_at.
    by rewrite Hi.
  - intros iss p A d md ps acc cbs Hok HA Hnext Hps Htot Hbal i s1 s2 s3
      Hacc Hcbs.
    assert (HI1 : Inv s1) by (by apply Inv_step).
    destruct Hok as (_ & Hiss & _).
    assert (Hs1 : s1 = createInvoice_post iss p A d md s).
    { subst s1. unfold step. rewrite createInvoice_run.
      repeat case_bool_decide; try done; lia. }
    assert (Hinv1 : invoices_at s1 i = mkInvoice i iss p A 0 d false).
    { rewrite Hs1. unfold createInvoice_post. fold i.
      case_bool_decide; by read_state. }
    assert (Hbal1 : balance s1 = balance s).
    { rewrite Hs1. unfold createInvoice_post. by case_bool_decide. }
    assert (Hnext1 : nextInvoiceId s1 = i + 1).
    { rewrite Hs1. unfold createInvoice_post. by case_bool_decide. }
    destruct (run_payments s1 i ps HI1) as (HI2 & Hinv2 & Hbal2 & Hnext2);
      rewrite ?Hinv1, ?Hbal1; cbn; try done; try lia.
    fold s2 in HI2, Hinv2, Hbal2, Hnext2. rewrite Hinv1 in Hinv2.
    cbn in Hinv2. rewrite Htot, Z.add_0_l in Hinv2.
    pose proof (wf_next s (inv_wf s HI)) as Hi0. fold i in Hi0.
    assert (Hacc2 : acc iss (paidAmount (invoices_at s2 i))
                      (withdraw_mid i s2) = Some cbs) by (by rewrite Hinv2).
    destruct (withdraw_accepted s2 iss i acc cbs HI2)
      as (Hrun & HI3 & Hkeep & Hpaid3 & _);
      [ by rewrite Hinv2 | by rewrite Hinv2 | rewrite Hinv2; cbn; lia
      | done | done | ].
    destruct Hkeep as (_ & Hiss3 & _ & Ham3 & _); [lia|].
    rewrite Hinv2 in Hiss3, Ham3. cbn in Hiss3, Ham3.
    assert (Hs3 : s3 = withdraw_post iss i cbs s2).
    { subst s3. unfold step. by rewrite Hrun. }
    split; [by rewrite Hinv2|].
    split; [rewrite getRemainingAmount_run, Hinv2; cbn;
            case_bool_decide; [done|]; do 2 f_equal; lia|].
    split; [by rewrite Hrun|].
    rewrite Hs3, getRemainingAmount_run, Hiss3, Ham3, Hpaid3.
    case_bool_decide; [done|]. do 2 f_equal. lia.
Qed.

Lemma remaining_reads_paidAmount_witness :
  paidAmount (invoices_at fully_paid 0) = 100 ∧
  getRemainingAmount 0 fully_paid = (fully_paid, inr 0) ∧
  getRemainingAmount 0 withdrawn = (withdrawn, inr 100).
Proof.
  destruct (remaining_reads_paidAmount deployed deployed_reachable)
    as (_ & _ & H).
  destruct (H alice bob 100 0 "rent" [(bob, 60); (bob, 40)] accept_all [])
    as (Hpaid & Hzero & _ & Hfull);
    [ by_eval | lia | by_eval | | by_eval | by_eval | by_eval | by_eval | ].
  - repeat (apply Forall_cons; split;
              [unfold may_pay; cbn; split; [done | split; [lia | by right]]|]).
    constructor.
  - vm_compute in Hpaid, Hzero, Hfull. vm_compute.
    split; [exact Hpaid | split; [exact Hzero | exact Hfull]].
Defined.

(** C4: on an existing invoice that is not cancelled, [cancelInvoice] by
    the issuer succeeds and sets [cancelled]; when something was paid and
    the invoice names a payer, that payer's pending returns grow by
    [paidAmount], which becomes 0; when the invoice is open, [paidAmount]
    and all pending returns stay as they were. *)
Theorem cancelInvoice_refunds_named_payer s sender i :
  reachable s →
  let inv := invoices_at s i in
  let s' := step sender (CancelInvoice i) s in
  issuer inv ≠ 0 → issuer inv = sender → cancelled inv = false →
  (call sender (CancelInvoice i) s).2 = inr () ∧
  cancelled (invoices_at s' i) = true ∧
  (paidAmount inv > 0 → payer inv ≠ 0 →
   pendingReturns_at s' (payer inv)
     = pendingReturns_at s (payer inv) + paidAmount inv ∧
   paidAmount (invoices_at s' i) = 0) ∧
  (payer inv = 0 →
   paidAmount (invoices_at s' i) = paidAmount inv ∧
   pendingReturns s' = pendingReturns s).
Proof.
  intros Hr inv s' Hiss Hs Hc. pose proof (reachable_Inv s Hr) as HI.
  subst s'. unfold step. rewrite cancelInvoice_run by done. cbn zeta.
  fold inv. rewrite Hc.
  repeat case_bool_decide; try done.
  unfold cancelInvoice_post. fold inv.
  case_bool_decide; subst inv; read_state; repeat split; try done; tauto.
Qed.

Lemma cancelInvoice_refunds_named_payer_witness :
  cancelled (invoices_at open_cancelled 0) = true ∧
  paidAmount (invoices_at open_cancelled 0) = 30.
Proof.
  destruct (cancelInvoice_refunds_named_payer open_paid alice 0)
    as (_ & Hc & _ & Hopen);
    [ apply open_paid_reachable | by_eval | by_eval | by_eval | ].
  split; [exact Hc|]. apply Hopen. by_eval.
Defined.

(** C5: on an existing invoice that holds something, [withdraw] by the
    issuer sets [paidAmount] to 0 and then sends the issuer exactly the
    amount held before: the recipient is called with that amount, in a
    state where the invoice already holds nothing and the ether has left.
    When the recipient accepts, whatever it called back, the invoice
    holds nothing afterwards, the contract has that much less ether, up
    to what the calls back brought in, and a second [withdraw] finds no
    funds. *)
Theorem withdraw_zeroes_then_sends s sender i :
  reachable s →
  let inv := invoices_at s i in
  issuer inv ≠ 0 → issuer inv = sender → paidAmount inv > 0 →
  paidAmount (invoices_at (withdraw_mid i s) i) = 0 ∧
  balance (withdraw_mid i s) = balance s - paidAmount inv ∧
  (∀ acc,
     call sender (Withdraw i acc) s =
       match acc sender (paidAmount inv) (withdraw_mid i s) with
       | Some cbs =>
           (add_event (InvoiceWithdrawn i sender (paidAmount inv))
              (callbacks cbs (withdraw_mid i s)), inr ())
       | None => (s, inl TransferFailed)
       end) ∧
  (∀ acc cbs,
     acc sender (paidAmount inv) (withdraw_mid i s) = Some cbs →
     callbacks_ok cbs (withdraw_mid i s) →
     let s' := step sender (Withdraw i acc) s in
     paidAmount (invoices_at s' i) = 0 ∧
     balance s' = balance s - paidAmount inv + sent_back cbs ∧
     ∀ acc', call sender (Withdraw i acc') s' = (s', inl NoFundsToWithdraw)).
Proof.
  intros Hr inv Hiss Hs Hp. pose proof (reachable_Inv s Hr) as HI.
  split; [unfold withdraw_mid; by read_state|].
  split; [done|]. split.
  { intros acc. rewrite withdraw_run by done. cbn zeta. fold inv.
    repeat case_bool_decide; try done; lia. }
  intros acc cbs Hacc Hok s'.
  destruct (withdraw_accepted s sender i acc cbs HI Hiss Hs Hp Hacc Hok)
    as (Hrun & HI' & Hkeep & Hpaid' & Hbal').
  assert (Hs' : s' = withdraw_post sender i cbs s).
  { subst s'. unfold step. by rewrite Hrun. }
  rewrite Hs'. split; [done|]. split; [done|].
  intros acc'. rewrite withdraw_run by done. cbn zeta.
  destruct Hkeep as (_ & Hiss' & _); [by apply (Inv_issuer_iff s i HI)|].
  rewrite Hiss', Hpaid'. fold inv. repeat case_bool_decide; done.
Qed.

Lemma withdraw_zeroes_then_sends_witness :
  let s' := step alice (Withdraw 0 (returns 1)) fully_paid in
  paidAmount (invoices_at s' 0) = 0 ∧
  balance s' = 100 - 100 + 1 ∧
  call alice (Withdraw 0 accept_all) s' = (s', inl NoFundsToWithdraw).
Proof.
  destruct (withdraw_zeroes_then_sends fully_paid alice 0)
    as (_ & _ & _ & Hsecond);
    [ apply fully_paid_reachable | by_eval | by_eval | by_eval | ].
  destruct (Hsecond (returns 1) [(alice, CbReceive 1)])
    as (Hpaid & Hbal & Hagain); [by_eval | by_eval |].
  split; [exact Hpaid | split; [exact Hbal | exact (Hagain accept_all)]].
Defined.

(** C6: a call that fails leaves the state as it was. Every error but
    [TransferFailed] is raised before the body has written anything;
    [TransferFailed] comes from [withdraw] or [withdrawPending] only,
    after the invoice (or the pending return) was set to 0, and the
    failed call undoes that write. *)
Theorem failed_call_reverts s sender c :
  reachable s → call_ok s sender c →
  (∀ e, (call sender c s).2 = inl e → (call sender c s).1 = s) ∧
  (∀ s1 e,
     call_body sender c (set_balance (balance s + call_value c) s)
       = (s1, inl e) →
     call sender c s = (s, inl e) ∧
     (e ≠ TransferFailed → s1 = set_balance (balance s + call_value c) s) ∧
     (e = TransferFailed →
      (∃ i acc, c = Withdraw i acc ∧ s1 = withdraw_mid i s ∧
                paidAmount (invoices_at s1 i) = 0 ∧
                paidAmount (invoices_at s i) > 0) ∨
      (∃ acc, c = WithdrawPending acc ∧ s1 = withdrawPending_mid sender s ∧
              pendingReturns_at s1 sender = 0 ∧
              pendingReturns_at s sender > 0))).
Proof.
  intros Hr (_ & _ & Hv & Hb & _). pose proof (reachable_Inv s Hr) as HI.
  assert (HI0 : Inv (set_balance (balance s + call_value c) s)).
  { by apply (Inv_receive s sender). }
  split.
  { intros e. unfold call, exec.
    by destruct (call_body _ _ _) as [s1 [e'|[]]]. }
  intros s1 e Hbody. split; [unfold call, exec; by rewrite Hbody|].
  split; [intros He; by apply (body_fails_before_write _ sender c s1 e)|].
  intros ->.
  destruct (body_transfer_failed _ sender c s1 HI0 Hbody)
    as [(i & acc & -> & -> & Hp) | (acc & -> & -> & Hp)];
    cbn [call_value] in *; rewrite Z.add_0_r, set_balance_id in *.
  - left. exists i, acc. repeat split; try done.
    unfold withdraw_mid. by read_state.
  - right. exists acc. repeat split; try done.
    unfold withdrawPending_mid. by read_state.
Qed.

Lemma failed_call_reverts_witness :
  call alice (Withdraw 0 refuse_all) fully_paid
    = (fully_paid, inl TransferFailed) ∧
  paidAmount (invoices_at (withdraw_mid 0 fully_paid) 0) = 0 ∧
  paidAmount (invoices_at fully_paid 0) = 100.
Proof.
  destruct (failed_call_reverts fully_paid alice (Withdraw 0 refuse_all))
    as [_ H]; [apply fully_paid_reachable | by_eval |].
  destruct (H (withdraw_mid 0 fully_paid) TransferFailed) as (Hcall & _ & _);
    [by_eval|].
  split; [exact Hcall | by_eval].
Defined.

(** C7: [payInvoice] fails in exactly five cases, tested in this order:
    nothing is sent; the invoice does not exist; it is cancelled; it names
    a payer who is not the caller; nothing remains to be paid. In every
    other case it succeeds. *)
Theorem payInvoice_fails_exactly s sender v i :
  reachable s → call_ok s sender (PayInvoice v i) →
  (call sender (PayInvoice v i) s).2 =
    if bool_decide (v ≤ 0) then inl InvalidAmount
    else match invoices s !! i with
         | None => inl InvoiceNotFound
         | Some inv =>
             if cancelled inv then inl InvoiceIsCancelled
             else if bool_decide (payer inv ≠ 0 ∧ payer inv ≠ sender)
               then inl UnauthorizedPayer
             else if bool_decide (amount inv - paidAmount inv = 0)
               then inl AlreadyFullyPaid
             else inr ()
         end.
Proof.
  intros Hr (_ & _ & Hv & Hb & _). cbn in Hv, Hb.
  pose proof (reachable_Inv s Hr) as HI.
  rewrite payInvoice_run by done. cbn zeta. unfold invoices_at.
  destruct (invoices s !! i) as [inv|] eqn:Hi; cbn.
  - destruct (wf_invoice s (inv_wf s HI) i inv Hi).
    repeat (case_bool_decide || destruct (cancelled _)); done.
  - repeat case_bool_decide; done.
Qed.

Lemma payInvoice_fails_exactly_witness :
  (call carol (PayInvoice 10 0) invoiced).2 = inl UnauthorizedPayer ∧
  (call bob (PayInvoice 10 0) fully_paid).2 = inl AlreadyFullyPaid ∧
  (call bob (PayInvoice 10 0) invoiced).2 = inr ().
Proof.
  split; [|split].
  - rewrite (payInvoice_fails_exactly invoiced carol 10 0);
      [by_eval | apply invoiced_reachable | by_eval].
  - rewrite (payInvoice_fails_exactly fully_paid bob 10 0);
      [by_eval | apply fully_paid_reachable | by_eval].
  - rewrite (payInvoice_fails_exactly invoiced bob 10 0);
      [by_eval | apply invoiced_reachable | by_eval].
Defined.

(** C8: [withdraw] does not look at [cancelled]. Whether the invoice is
    cancelled or not, what [withdraw] returns is decided by the issuer,
    the amount held and the transfer alone, so it never fails because of
    a cancellation. In a reachable state a cancelled invoice that still
    holds something is an open one, and the issuer's [withdraw] on it
    succeeds when the recipient accepts, and sends what it holds. *)
Theorem withdraw_ignores_cancelled s sender i acc :
  reachable s →
  let inv := invoices_at s i in
  (call sender (Withdraw i acc) s).2 =
    (if bool_decide (issuer inv = 0) then inl InvoiceNotFound
     else if bool_decide (issuer inv ≠ sender) then inl UnauthorizedWithdraw
     else if bool_decide (paidAmount inv = 0) then inl NoFundsToWithdraw
     else if acc sender (paidAmount inv) (withdraw_mid i s) is Some _
       then inr ()
     else inl TransferFailed) ∧
  (cancelled inv = true → paidAmount inv > 0 →
   payer inv = 0 ∧
   (issuer inv = sender →
    ∀ cbs,
      acc sender (paidAmount inv) (withdraw_mid i s) = Some cbs →
      callbacks_ok cbs (withdraw_mid i s) →
      let s' := step sender (Withdraw i acc) s in
      (call sender (Withdraw i acc) s).2 = inr () ∧
      paidAmount (invoices_at s' i) = 0 ∧
      cancelled (invoices_at s' i) = true ∧
      balance s' = balance s - paidAmount inv + sent_back cbs ∧
      events s'
      = InvoiceWithdrawn i sender (paidAmount inv)
          :: events (callbacks cbs (withdraw_mid i s)))).
Proof.
  intros Hr inv. pose proof (reachable_Inv s Hr) as HI. split.
  { rewrite withdraw_run by done. cbn zeta. fold inv.
    repeat (case_bool_decide || destruct (acc _ _ _)); done. }
  intros Hc Hp.
  assert (Hi : 0 ≤ i < nextInvoiceId s).
  { apply (wf_dom s (inv_wf s HI)). subst inv. unfold invoices_at in Hc.
    by destruct (invoices s !! i). }
  destruct (Inv_invoices_at s i HI Hi) as [_ Hok]. fold inv in Hok.
  destruct Hok as [_ Hiss _ _ Hrefunded].
  split.
  { destruct (decide (payer inv = 0)) as [|Hne]; [done|].
    specialize (Hrefunded Hc Hne). lia. }
  intros Hs cbs Hacc Hcbs s'.
  destruct (withdraw_accepted s sender i acc cbs HI Hiss Hs Hp Hacc Hcbs)
    as (Hrun & HI' & Hkeep & Hpaid' & Hbal').
  assert (Hs' : s' = withdraw_post sender i cbs s).
  { subst s'. unfold step. by rewrite Hrun. }
  destruct (Hkeep Hi) as (_ & _ & _ & _ & _ & _ & Hc' & _).
  rewrite Hs', Hrun. repeat split; try done. by apply Hc'.
Qed.

Lemma withdraw_ignores_cancelled_witness :
  let s' := step alice (Withdraw 0 accept_all) open_cancelled in
  payer (invoices_at open_cancelled 0) = 0 ∧
  (call alice (Withdraw 0 accept_all) open_cancelled).2 = inr () ∧
  paidAmount (invoices_at s' 0) = 0 ∧
  balance s' = 30 - 30 + 0.
Proof.
  destruct (withdraw_ignores_cancelled open_cancelled alice 0 accept_all)
    as (_ & H); [apply open_cancelled_reachable|].
  destruct H as (Hopen & Hw); [by_eval | by_eval |].
  destruct (Hw ltac:(by_eval) []) as (Hcall & Hpaid & _ & Hbal & _);
    [by_eval | by_eval |].
  split; [exact Hopen|]. split; [exact Hcall|].
  split; [exact Hpaid | exact Hbal].
Defined.

(** C9: a successful [payInvoice] on invoice [i] by [sender] changes, of
    the storage, only the [paidAmount] of invoice [i] and, when it
    overpays, the pending returns of [sender]: the other invoices, the
    other fields of invoice [i], the other accounts' pending returns, the
    two indices, the metadata and [nextInvoiceId] are as before. *)
Theorem payInvoice_frame s sender v i s' :
  call sender (PayInvoice v i) s = (s', inr ()) →
  (∀ j, j ≠ i → invoices s' !! j = invoices s !! j) ∧
  invoices_at s' i
    = with_paidAmount (paidAmount (invoices_at s' i)) (invoices_at s i) ∧
  (∀ a, a ≠ sender → pendingReturns s' !! a = pendingReturns s !! a) ∧
  (v ≤ amount (invoices_at s i) - paidAmount (invoices_at s i) →
   pendingReturns s' = pendingReturns s) ∧
  invoicesOfIssuer s' = invoicesOfIssuer s ∧
  invoicesOfPayer s' = invoicesOfPayer s ∧
  invoiceMetadata s' = invoiceMetadata s ∧
  nextInvoiceId s' = nextInvoiceId s.
Proof.
  destruct (invoices s !! i) as [inv|] eqn:Hi.
  - run_M; rewrite ?Hi in *; cbn in *; try done.
    all: intros [= <-]; read_state; rewrite ?Hi; cbn.
    all: repeat split; try done; try lia.
    all: intros; rewrite ?lookup_insert_ne; done.
  - run_M; rewrite ?Hi in *; cbn in *; done.
Qed.

Lemma payInvoice_frame_witness :
  (∀ a, a ≠ bob → pendingReturns overpaid !! a = pendingReturns invoiced !! a) ∧
  invoiceMetadata overpaid = invoiceMetadata invoiced ∧
  nextInvoiceId overpaid = nextInvoiceId invoiced.
Proof.
  destruct (payInvoice_frame invoiced bob 150 0 overpaid)
    as (_ & _ & Hpending & _ & _ & _ & Hmeta & Hnext); [by_eval|].
  split; [exact Hpending | split; [exact Hmeta | exact Hnext]].
Defined.

(** C10: in every reachable state a record exists exactly for the ids
    [0 .. nextInvoiceId - 1] and every record has a nonzero issuer, so the
    test [issuer != 0] that every lookup makes is the test
    [id < nextInvoiceId]. *)
Theorem exists_iff_below_next s :
  reachable s →
  (∀ i, is_Some (invoices s !! i) ↔ 0 ≤ i < nextInvoiceId s) ∧
  (∀ i inv, invoices s !! i = Some inv → issuer inv ≠ 0) ∧
  (∀ i, issuer (invoices_at s i) ≠ 0 ↔ 0 ≤ i < nextInvoiceId s) ∧
  (∀ i, (getInvoice i s).2 = inl InvoiceNotFound
        ↔ ¬ (0 ≤ i < nextInvoiceId s)) ∧
  (∀ i, (getRemainingAmount i s).2 = inl InvoiceNotFound
        ↔ ¬ (0 ≤ i < nextInvoiceId s)) ∧
  (∀ sender v i,
     call_ok s sender (PayInvoice v i) → 0 < v →
     (call sender (PayInvoice v i) s).2 = inl InvoiceNotFound
     ↔ ¬ (0 ≤ i < nextInvoiceId s)) ∧
  (∀ sender i acc,
     (call sender (Withdraw i acc) s).2 = inl InvoiceNotFound
     ↔ ¬ (0 ≤ i < nextInvoiceId s)) ∧
  (∀ sender i,
     (call sender (CancelInvoice i) s).2 = inl InvoiceNotFound
     ↔ ¬ (0 ≤ i < nextInvoiceId s)).
Proof.
  intros Hr. pose proof (reachable_Inv s Hr) as HI.
  split; [apply (wf_dom s (inv_wf s HI))|].
  split; [intros i inv Hi; by destruct (wf_invoice s (inv_wf s HI) i inv Hi)|].
  split; [intros i; by apply Inv_issuer_iff|].
  split; [intros i; rewrite getInvoice_run, <- (Inv_issuer_iff s i HI);
          case_bool_decide; cbn; split; (done || tauto)|].
  split; [intros i; rewrite getRemainingAmount_run, <- (Inv_issuer_iff s i HI);
          case_bool_decide; cbn; split; (done || tauto)|].
  split; [|split].
  - intros sender v i (_ & _ & Hv & Hb & _) Hv0. cbn in Hv, Hb.
    rewrite payInvoice_run, <- (Inv_issuer_iff s i HI) by done. cbn zeta.
    repeat (case_bool_decide || destruct (cancelled _)); cbn;
      split; (done || tauto || lia).
  - intros sender i acc.
    rewrite withdraw_run, <- (Inv_issuer_iff s i HI) by done. cbn zeta.
    repeat (case_bool_decide || destruct (acc _ _ _)); cbn;
      split; (done || tauto).
  - intros sender i.
    rewrite cancelInvoice_run, <- (Inv_issuer_iff s i HI) by done. cbn zeta.
    repeat (case_bool_decide || destruct (cancelled _)); cbn;
      split; (done || tauto).
Qed.

Lemma exists_iff_below_next_witness :
  reachable overpaid ∧
  (∀ i, issuer (invoices_at overpaid i) ≠ 0
        ↔ 0 ≤ i < nextInvoiceId overpaid).
Proof.
  split; [apply overpaid_reachable|].
  apply (exists_iff_below_next overpaid overpaid_reachable).
Defined.

(** * Further properties of the contract *)

(** ** The two outcomes of a call that makes a transfer *)

Lemma withdraw_step s sender i acc :
  Inv s → call_ok s sender (Withdraw i acc) →
  (∃ e, call sender (Withdraw i acc) s = (s, inl e)) ∨
  (∃ cbs,
     let inv := invoices_at s i in
     issuer inv ≠ 0 ∧ issuer inv = sender ∧ paidAmount inv > 0 ∧
     acc sender (paidAmount inv) (withdraw_mid i s) = Some cbs ∧
     callbacks_ok cbs (withdraw_mid i s) ∧
     call sender (Withdraw i acc) s = (withdraw_post sender i cbs s, inr ())).
Proof.
  intros HI (_ & _ & _ & _ & _ & Hrec). unfold recipient_ok in Hrec.
  pose proof (Inv_paid_range s i HI).
  rewrite withdraw_run by done. cbn zeta.
  repeat case_bool_decide; eauto.
  destruct (acc _ _ _) as [cbs|] eqn:Hacc; eauto.
  right. exists cbs. repeat split; try done; lia.
Qed.

Lemma withdrawPending_step s sender acc :
  Inv s → call_ok s sender (WithdrawPending acc) →
  (∃ e, call sender (WithdrawPending acc) s = (s, inl e)) ∨
  (∃ cbs,
     let x := pendingReturns_at s sender in
     x > 0 ∧ acc sender x (withdrawPending_mid sender s) = Some cbs ∧
     callbacks_ok cbs (withdrawPending_mid sender s) ∧
     call sender (WithdrawPending acc) s
     = (withdrawPending_post sender cbs s, inr ())).
Proof.
  intros HI (_ & _ & _ & _ & Hrec). unfold recipient_ok in Hrec.
  pose proof (Inv_pending_range s sender HI).
  rewrite withdrawPending_run by done.
  case_bool_decide; eauto.
  destruct (acc _ _ _) as [cbs|] eqn:Hacc; eauto.
  right. exists cbs. repeat split; try done; lia.
Qed.

(** A relation between states that holds across every call back, every
    payment and the writes of [withdraw] and [withdrawPending] holds
    across every call. *)
Lemma step_rel (R : State → State → Prop) :
  (∀ s, R s s) →
  (∀ s1 s2 s3, R s1 s2 → R s2 s3 → R s1 s3) →
  (∀ s sender cb,
     Inv s → callback_ok s sender cb → R s (callback sender cb s)) →
  (∀ s sender v i,
     Inv s → 0 ≤ v → balance s + v ≤ MAX_UINT256 →
     R s (step sender (PayInvoice v i) s)) →
  (∀ s i, Inv s → issuer (invoices_at s i) ≠ 0 → R s (withdraw_mid i s)) →
  (∀ s a, Inv s → R s (withdrawPending_mid a s)) →
  (∀ s i a x, R s (add_event (InvoiceWithdrawn i a x) s)) →
  (∀ s a x, R s (add_event (PendingReturnWithdrawn a x) s)) →
  ∀ s sender c, Inv s → call_ok s sender c → R s (step sender c s).
Proof.
  intros Hrefl Htrans Hcb Hpay Hwm Hpm Hew Hep s sender c HI Hok.
  destruct c as [p a d md | v i | i acc | i | acc | v | o |].
  - by apply (Hcb s sender (CbCreateInvoice p a d md)).
  - destruct Hok as (_ & _ & Hv & Hb & _). by apply Hpay.
  - unfold step.
    destruct (withdraw_step s sender i acc HI Hok)
      as [[e ->] | (cbs & Hiss & _ & _ & _ & Hcbs & ->)]; [apply Hrefl|].
    cbn [fst]. unfold withdraw_post.
    apply (Htrans _ (withdraw_mid i s)); [by apply Hwm|].
    apply (Htrans _ (callbacks cbs (withdraw_mid i s))); [|apply Hew].
    apply callbacks_rel; try done. by apply Inv_withdraw_mid.
  - by apply (Hcb s sender (CbCancelInvoice i)).
  - unfold step.
    destruct (withdrawPending_step s sender acc HI Hok)
      as [[e ->] | (cbs & _ & _ & Hcbs & ->)]; [apply Hrefl|].
    cbn [fst]. unfold withdrawPending_post.
    apply (Htrans _ (withdrawPending_mid sender s)); [by apply Hpm|].
    apply (Htrans _ (callbacks cbs (withdrawPending_mid sender s)));
      [|apply Hep].
    apply callbacks_rel; try done. by apply Inv_withdrawPending_mid.
  - by apply (Hcb s sender (CbReceive v)).
  - by apply (Hcb s sender (CbTransferOwnership o)).
  - by apply (Hcb s sender CbRenounceOwnership).
Qed.

Lemma step_keeps i s sender c :
  Inv s → call_ok s sender c → keeps i s (step sender c s).
Proof.
  apply (step_rel (keeps i)).
  - apply keeps_refl.
  - apply keeps_trans.
  - apply callback_keeps.
  - intros s' a v j HI Hv Hb Hi. cbn zeta. call_cases HI Hv Hb.
    all: read_at; repeat split; try done; try lia.
  - intros; apply keeps_withdraw_mid.
  - intros; apply keeps_withdrawPending_mid.
  - intros; apply keeps_add_event.
  - intros; apply keeps_add_event.
Qed.

(** A cancelled invoice is still there, and still cancelled, after any
    further calls. *)
Lemma run_keeps_cancelled s cs i :
  Inv s → run_ok cs s → 0 ≤ i < nextInvoiceId s →
  cancelled (invoices_at s i) = true →
  0 ≤ i < nextInvoiceId (run cs s) ∧
  cancelled (invoices_at (run cs s) i) = true.
Proof.
  revert s.
  induction cs as [|[sender c] cs IH]; intros s HI Hok Hi Hc; [done|].
  destruct Hok as [Hcall Hok].
  destruct (step_keeps i s sender c HI Hcall Hi)
    as (_ & _ & _ & _ & _ & _ & Hc' & Hn).
  apply (IH (step sender c s)); [by apply Inv_step | done | lia | auto].
Qed.

(** X1: an invoice, once created, keeps its id, issuer, payer, amount, due
    date and metadata through every later call, is never removed, and
    once cancelled stays cancelled. *)
Theorem invoice_is_permanent s cs i :
  reachable s → run_ok cs s → 0 ≤ i < nextInvoiceId s →
  let s' := run cs s in
  let inv := invoices_at s i in
  let inv' := invoices_at s' i in
  0 ≤ i < nextInvoiceId s' ∧
  id inv' = id inv ∧ issuer inv' = issuer inv ∧ payer inv' = payer inv ∧
  amount inv' = amount inv ∧ dueDate inv' = dueDate inv ∧
  invoiceMetadata_at s' i = invoiceMetadata_at s i ∧
  (cancelled inv = true → cancelled inv' = true).
Proof.
  intros Hr. apply reachable_Inv in Hr. revert s Hr.
  induction cs as [|[sender c] cs IH]; intros s HI Hok Hi; [done|].
  destruct Hok as [Hc Hok].
  destruct (step_keeps i s sender c HI Hc Hi)
    as (E1 & E2 & E3 & E4 & E5 & E6 & E7 & E8).
  destruct (IH (step sender c s)) as (F0 & F1 & F2 & F3 & F4 & F5 & F6 & F7);
    [by apply Inv_step | done | lia |].
  cbn [run]. cbn zeta.
  rewrite F1, F2, F3, F4, F5, F6, E1, E2, E3, E4, E5, E6. auto 10.
Qed.

Lemma invoice_is_permanent_witness :
  issuer (invoices_at withdrawn 0) = alice ∧
  amount (invoices_at withdrawn 0) = 100 ∧
  invoiceMetadata_at withdrawn 0 = "rent".
Proof.
  destruct (invoice_is_permanent invoiced
              [(bob, PayInvoice 60 0); (bob, PayInvoice 40 0);
               (alice, Withdraw 0 accept_all)] 0)
    as (_ & _ & Hiss & _ & Ham & _ & Hmd & _);
    [apply invoiced_reachable | by_eval | by_eval |].
  vm_compute in Hiss, Ham, Hmd. vm_compute.
  split; [exact Hiss | split; [exact Ham | exact Hmd]].
Defined.

(** ** Ether *)

Lemma surplus_step s sender c :
  Inv s → call_ok s sender c →
  balance (step sender c s) - held (step sender c s)
  = balance s - held s
    + match c with
      | Receive v => v
      | _ => sent_back (calls_back sender c s)
      end.
Proof.
  intros HI Hok.
  assert (Hcb : ∀ cb,
    callback_ok s sender cb →
    balance (step sender (as_call cb) s) - held (step sender (as_call cb) s)
    = balance s - held s + callback_value cb).
  { intros cb Hc. rewrite <- callback_as_call.
    destruct (callback_balance s sender cb HI Hc) as [-> ->]. lia. }
  assert (Hnone : ∀ c', calls_back sender c' s = [] →
                        sent_back (calls_back sender c' s) = 0).
  { by intros c' ->. }
  destruct c as [p a d md | v i | i acc | i | acc | v | o |].
  - pose proof (Hcb (CbCreateInvoice p a d md) Hok) as E.
    cbn [as_call callback_value] in E.
    rewrite E, Hnone; [lia|].
    unfold calls_back. by destruct (call _ _ _).2.
  - rewrite Hnone by (unfold calls_back; by destruct (call _ _ _).2).
    destruct Hok as (_ & _ & Hv & Hb & _). cbn in Hv, Hb.
    pose proof (Inv_paid_range s i HI).
    call_cases HI Hv Hb; try lia.
    all: rewrite ?held_add_event, ?held_set_invoice; cbn;
      rewrite ?held_set_pendingReturns, ?held_set_balance; cbn.
    all: unfold invoices_at, pendingReturns_at in *;
      destruct (invoices s !! i); cbn in *; lia.
  - unfold calls_back, step.
    destruct (withdraw_step s sender i acc HI Hok)
      as [[e ->] | (cbs & Hiss & _ & _ & Hacc & Hcbs & ->)];
      cbn [fst snd]; [cbn; lia|].
    rewrite Hacc. change (default [] (Some cbs)) with cbs. unfold withdraw_post.
    rewrite held_add_event.
    destruct (callbacks_balance cbs (withdraw_mid i s)) as [Hb Hh];
      [by apply Inv_withdraw_mid | done |].
    change (balance (add_event _ ?x)) with (balance x). rewrite Hb, Hh.
    apply (Inv_issuer_iff s i HI) in Hiss.
    destruct (Inv_invoices_at s i HI Hiss) as [Hi _].
    unfold withdraw_mid. rewrite held_set_balance, held_set_invoice, Hi.
    cbn [from_option paidAmount with_paidAmount balance set_balance]. lia.
  - pose proof (Hcb (CbCancelInvoice i) Hok) as E.
    cbn [as_call callback_value] in E.
    rewrite E, Hnone; [lia|].
    unfold calls_back. by destruct (call _ _ _).2.
  - unfold calls_back, step.
    destruct (withdrawPending_step s sender acc HI Hok)
      as [[e ->] | (cbs & _ & Hacc & Hcbs & ->)];
      cbn [fst snd]; [cbn; lia|].
    rewrite Hacc. change (default [] (Some cbs)) with cbs.
    unfold withdrawPending_post.
    rewrite held_add_event.
    destruct (callbacks_balance cbs (withdrawPending_mid sender s))
      as [Hb Hh]; [by apply Inv_withdrawPending_mid | done |].
    change (balance (add_event _ ?x)) with (balance x). rewrite Hb, Hh.
    unfold withdrawPending_mid.
    rewrite held_set_balance, held_set_pendingReturns.
    cbn [balance set_balance]. unfold pendingReturns_at. lia.
  - pose proof (Hcb (CbReceive v) Hok) as E.
    cbn [as_call callback_value] in E.
    by rewrite E.
  - pose proof (Hcb (CbTransferOwnership o) Hok) as E.
    cbn [as_call callback_value] in E.
    rewrite E, Hnone; [lia|].
    unfold calls_back. by destruct (call _ _ _).2.
  - pose proof (Hcb CbRenounceOwnership Hok) as E.
    cbn [as_call callback_value] in E.
    rewrite E, Hnone; [lia|].
    unfold calls_back. by destruct (call _ _ _).2.
Qed.

(** X2: ether is accounted for exactly. The contract always holds at
    least what it owes (invoices' holdings plus pending returns). A call
    changes the difference only by the ether that comes in through
    [receive]: what the call itself sends to [receive], or what the
    recipient of its transfer sends back to [receive] from inside the
    transfer. No call takes it out again. *)
Theorem balance_covers_holdings s sender c :
  reachable s → call_ok s sender c →
  let s' := step sender c s in
  held s ≤ balance s ∧ held s' ≤ balance s' ∧
  balance s' - held s'
  = balance s - held s
    + match c with
      | Receive v => v
      | _ => sent_back (calls_back sender c s)
      end.
Proof.
  intros Hr Hok s'. pose proof (reachable_Inv s Hr) as HI.
  split; [apply (inv_solvent s HI)|].
  split; [apply inv_solvent; by apply Inv_step|].
  by apply surplus_step.
Qed.

Lemma balance_covers_holdings_witness :
  held overpaid ≤ balance overpaid ∧
  balance (step carol (Receive 5) overpaid)
  - held (step carol (Receive 5) overpaid)
  = balance overpaid - held overpaid + 5 ∧
  balance (step alice (Withdraw 0 (returns 1)) fully_paid)
  - held (step alice (Withdraw 0 (returns 1)) fully_paid)
  = balance fully_paid - held fully_paid + 1.
Proof.
  destruct (balance_covers_holdings overpaid carol (Receive 5))
    as (Hs & _ & Hb); [apply overpaid_reachable | by_eval |].
  destruct (balance_covers_holdings fully_paid alice (Withdraw 0 (returns 1)))
    as (_ & _ & Hw); [apply fully_paid_reachable | by_eval |].
  vm_compute in Hs, Hb, Hw. vm_compute.
  split; [exact Hs | split; [exact Hb | exact Hw]].
Defined.

(** ** Who can take money out *)

(** X3: nobody but its owner takes a pending return. A call lowers the
    pending return of account [a] only when it is a successful
    [withdrawPending] called by [a] itself; no other call, and no call
    back made during a transfer, lowers it. *)
Theorem pending_return_is_safe s sender c a :
  reachable s → call_ok s sender c →
  let s' := step sender c s in
  pendingReturns_at s' a < pendingReturns_at s a →
  sender = a ∧ (∃ acc, c = WithdrawPending acc) ∧
  (call sender c s).2 = inr ().
Proof.
  intros Hr Hok s'. subst s'. pose proof (reachable_Inv s Hr) as HI.
  assert (Hcb : ∀ cb,
    callback_ok s sender cb →
    pendingReturns_at s a ≤ pendingReturns_at (step sender (as_call cb) s) a).
  { intros cb Hc. rewrite <- callback_as_call.
    by destruct (callback_no_payment s sender cb HI Hc) as [_ H]. }
  destruct c as [p x d md | v j | j acc | j | acc | v | o |].
  - pose proof (Hcb (CbCreateInvoice p x d md) Hok). cbn [as_call] in *. lia.
  - destruct Hok as (_ & _ & Hv & Hb & _). cbn in Hv, Hb.
    pose proof (Inv_paid_range s j HI).
    call_cases HI Hv Hb; try lia.
    all: read_at; unfold invoices_at, pendingReturns_at in *; cbn in *; lia.
  - unfold step.
    destruct (withdraw_step s sender j acc HI Hok)
      as [[e ->] | (cbs & Hiss & _ & _ & _ & Hcbs & ->)]; cbn [fst]; [lia|].
    destruct (callbacks_no_payment cbs (withdraw_mid j s)) as [_ Hge];
      [by apply Inv_withdraw_mid | done |].
    specialize (Hge a).
    change (pendingReturns_at (withdraw_post sender j cbs s) a)
      with (pendingReturns_at (callbacks cbs (withdraw_mid j s)) a).
    change (pendingReturns_at (withdraw_mid j s) a)
      with (pendingReturns_at s a) in Hge.
    lia.
  - pose proof (Hcb (CbCancelInvoice j) Hok). cbn [as_call] in *. lia.
  - unfold step.
    destruct (withdrawPending_step s sender acc HI Hok)
      as [[e ->] | (cbs & Hx & Hacc & Hcbs & Hrun)]; cbn [fst]; [lia|].
    rewrite Hrun. cbn [fst snd].
    destruct (decide (sender = a)) as [->|Hne]; [eauto|].
    destruct (withdrawPending_accepted s sender acc cbs HI Hx Hacc Hcbs)
      as (_ & _ & _ & _ & Hge).
    specialize (Hge a). lia.
  - pose proof (Hcb (CbReceive v) Hok). cbn [as_call] in *. lia.
  - pose proof (Hcb (CbTransferOwnership o) Hok). cbn [as_call] in *. lia.
  - pose proof (Hcb CbRenounceOwnership Hok). cbn [as_call] in *. lia.
Qed.

Lemma pending_return_is_safe_witness :
  (call bob (WithdrawPending accept_all) overpaid).2 = inr ().
Proof.
  destruct (pending_return_is_safe overpaid bob (WithdrawPending accept_all)
              bob) as (_ & _ & H);
    [apply overpaid_reachable | by_eval | by_eval |].
  exact H.
Defined.

(** A call back leaves what an invoice holds as it is, unless it is the
    issuer's [cancelInvoice] of that invoice. *)
Lemma callback_paid s sender cb i :
  Inv s → callback_ok s sender cb →
  let s' := callback sender cb s in
  paidAmount (invoices_at s' i) = paidAmount (invoices_at s i) ∨
  (paidAmount (invoices_at s' i) = 0 ∧ cb = CbCancelInvoice i ∧
   sender = issuer (invoices_at s i)).
Proof.
  intros HI (_ & _ & Hv & Hb & _) s'. subst s'. rewrite callback_as_call.
  assert (Hnone : invoices s !! nextInvoiceId s = None).
  { apply eq_None_not_Some. rewrite (wf_dom s (inv_wf s HI)). lia. }
  destruct cb as [p a d md | j | v | o |]; cbn [as_call callback_value] in *.
  all: call_cases HI Hv Hb; auto.
  all: read_at; unfold invoices_at in *; rewrite ?Hnone; cbn; auto.
Qed.

Lemma callbacks_paid cbs s i :
  Inv s → callbacks_ok cbs s →
  let s' := callbacks cbs s in
  paidAmount (invoices_at s' i) = paidAmount (invoices_at s i) ∨
  (paidAmount (invoices_at s' i) = 0 ∧
   (issuer (invoices_at s i), CbCancelInvoice i) ∈ cbs).
Proof.
  revert s. induction cbs as [|[sender cb] cbs IH]; intros s HI Hok; [by left|].
  destruct Hok as [Hc Hok]. cbn [callbacks]. cbn zeta.
  pose proof (Inv_callback s sender cb HI Hc) as HI1.
  destruct (callback_paid s sender cb i HI Hc) as [E | (E & Hcb & Hs)];
    destruct (IH (callback sender cb s) HI1 Hok) as [E' | (E' & Hin)].
  - left. by rewrite E', E.
  - destruct (decide (0 ≤ i < nextInvoiceId s)) as [Hi|Hi].
    + destruct (callback_keeps i s sender cb HI Hc Hi) as (_ & Hiss & _).
      right. split; [done|]. rewrite <- Hiss. by right.
    + left. rewrite E'. by rewrite (invoices_at_absent s i HI Hi).
  - right. split; [by rewrite E', E | rewrite Hcb, Hs; by left].
  - right. split; [done | rewrite Hcb, Hs; by left].
Qed.

(** X4: only the issuer takes money out of an invoice. A call lowers the
    [paidAmount] of invoice [i] only to 0, and only when the issuer of
    [i] asks for it: the call is [withdraw] or [cancelInvoice] on [i] by
    the issuer, or it makes a transfer during which the issuer calls
    [cancelInvoice] on [i] back. *)
Theorem holdings_leave_by_issuer_only s sender c i :
  reachable s → call_ok s sender c →
  let s' := step sender c s in
  let inv := invoices_at s i in
  paidAmount (invoices_at s' i) < paidAmount inv →
  paidAmount (invoices_at s' i) = 0 ∧
  ((sender = issuer inv ∧ ((∃ acc, c = Withdraw i acc) ∨ c = CancelInvoice i)) ∨
   (issuer inv, CbCancelInvoice i) ∈ calls_back sender c s).
Proof.
  intros Hr Hok s' inv. subst s' inv. pose proof (reachable_Inv s Hr) as HI.
  assert (Hcb : ∀ cb,
    callback_ok s sender cb →
    paidAmount (invoices_at (step sender (as_call cb) s) i)
      < paidAmount (invoices_at s i) →
    paidAmount (invoices_at (step sender (as_call cb) s) i) = 0 ∧
    cb = CbCancelInvoice i ∧ sender = issuer (invoices_at s i)).
  { intros cb Hc. rewrite <- callback_as_call.
    destruct (callback_paid s sender cb i HI Hc) as [E | E]; [lia | done]. }
  destruct c as [p x d md | v j | j acc | j | acc | v | o |].
  - intros Hlt.
    by destruct (Hcb (CbCreateInvoice p x d md) Hok Hlt) as (_ & ? & _).
  - destruct Hok as (_ & _ & Hv & Hb & _). cbn in Hv, Hb.
    pose proof (Inv_paid_range s j HI).
    call_cases HI Hv Hb; try lia.
    all: read_at; unfold invoices_at, pendingReturns_at in *; cbn in *; lia.
  - unfold calls_back, step.
    destruct (withdraw_step s sender j acc HI Hok)
      as [[e ->] | (cbs & Hiss & Hs & Hp & Hacc & Hcbs & Hrun)];
      cbn [fst snd]; [lia|].
    rewrite Hrun, Hacc. cbn [fst snd]. change (default [] (Some cbs)) with cbs.
    destruct (decide (j = i)) as [->|Hne].
    + destruct (withdraw_accepted s sender i acc cbs HI Hiss Hs Hp Hacc Hcbs)
        as (_ & _ & _ & Hz & _).
      intros _. split; [done|]. left. split; [done | eauto].
    + destruct (callbacks_paid cbs (withdraw_mid j s) i) as [E | [E Hin]];
        [by apply Inv_withdraw_mid | done | |].
      * change (invoices_at (withdraw_post sender j cbs s) i)
          with (invoices_at (callbacks cbs (withdraw_mid j s)) i).
        rewrite E. unfold withdraw_mid. read_at; [done | lia].
      * intros _. split; [done|]. right.
        assert (Hm : invoices_at (withdraw_mid j s) i = invoices_at s i).
        { unfold withdraw_mid. by read_at. }
        by rewrite Hm in Hin.
  - intros Hlt.
    destruct (Hcb (CbCancelInvoice j) Hok Hlt) as (Hz & [= ->] & Hs).
    split; [done|]. left. split; [done | by right].
  - unfold calls_back, step.
    destruct (withdrawPending_step s sender acc HI Hok)
      as [[e ->] | (cbs & Hx & Hacc & Hcbs & Hrun)]; cbn [fst snd]; [lia|].
    rewrite Hrun, Hacc. cbn [fst snd]. change (default [] (Some cbs)) with cbs.
    destruct (callbacks_paid cbs (withdrawPending_mid sender s) i)
      as [E | [E Hin]]; [by apply Inv_withdrawPending_mid | done | |].
    + change (invoices_at (withdrawPending_post sender cbs s) i)
        with (invoices_at (callbacks cbs (withdrawPending_mid sender s)) i).
      rewrite E. change (invoices_at (withdrawPending_mid sender s) i)
        with (invoices_at s i). lia.
    + intros _. split; [done|]. by right.
  - intros Hlt. by destruct (Hcb (CbReceive v) Hok Hlt) as (_ & ? & _).
  - intros Hlt.
    by destruct (Hcb (CbTransferOwnership o) Hok Hlt) as (_ & ? & _).
  - intros Hlt. by destruct (Hcb CbRenounceOwnership Hok Hlt) as (_ & ? & _).
Qed.

Lemma holdings_leave_by_issuer_only_witness :
  paidAmount (invoices_at (step alice (Withdraw 0 (cancels 1)) two_invoices) 1)
  = 0 ∧
  (alice, CbCancelInvoice 1)
    ∈ calls_back alice (Withdraw 0 (cancels 1)) two_invoices.
Proof.
  destruct (holdings_leave_by_issuer_only two_invoices alice
              (Withdraw 0 (cancels 1)) 1) as (Hz & [[_ [[acc H] | H]] | Hin]);
    [ apply two_invoices_reachable | by_eval | by_eval
    | discriminate H | discriminate H | ].
  split; [exact Hz | exact Hin].
Defined.

(** ** The log *)





(** ** Creating invoices *)

Lemma createInvoice_exec s sender p a d md :
  exec 0 (createInvoice sender p a d md) s =
    if bool_decide (a ≤ 0) then (s, inl InvalidInvoiceAmount)
    else if bool_decide (nextInvoiceId s + 1 > MAX_UINT256)
      then (s, inl Panic)
    else (createInvoice_post sender p a d md s, inr (nextInvoiceId s)).
Proof.
  unfold createInvoice_post, exec. rewrite Z.add_0_r, set_balance_id.
  run_M; try done; lia.
Qed.

(** X6: [createInvoice] rejects amount 0 and changes nothing then. With a
    positive amount it returns the id [nextInvoiceId], which did not exist
    before, and advances the counter by one; [getInvoice] on that id then
    returns the record as given, nothing paid, not cancelled, with its
    metadata, and [getRemainingAmount] returns the full amount. Invoices
    that existed, pending returns and the balance are untouched. *)
Theorem createInvoice_then_getInvoice s sender p a d md :
  reachable s → call_ok s sender (CreateInvoice p a d md) →
  nextInvoiceId s < MAX_UINT256 →
  let i := nextInvoiceId s in
  let s' := step sender (CreateInvoice p a d md) s in
  getInvoice i s = (s, inl InvoiceNotFound) ∧
  (a = 0 →
   exec 0 (createInvoice sender p a d md) s = (s, inl InvalidInvoiceAmount)) ∧
  (0 < a →
   exec 0 (createInvoice sender p a d md) s = (s', inr i) ∧
   nextInvoiceId s' = i + 1 ∧
   getInvoice i s' = (s', inr (mkInvoice i sender p a 0 d false, md)) ∧
   getRemainingAmount i s' = (s', inr a) ∧
   (∀ j, j ≠ i → invoices_at s' j = invoices_at s j ∧
                 invoiceMetadata_at s' j = invoiceMetadata_at s j) ∧
   pendingReturns s' = pendingReturns s ∧ balance s' = balance s).
Proof.
  intros Hr (_ & Hs & _ & _ & _ & Ha & _) Hn i s'.
  pose proof (reachable_Inv s Hr) as HI.
  split.
  { rewrite getInvoice_run, invoices_at_absent by (done || lia).
    by case_bool_decide. }
  split.
  { intros ->. rewrite createInvoice_exec. by case_bool_decide. }
  intros Ha0.
  assert (Hs' : s' = createInvoice_post sender p a d md s).
  { subst s'. unfold step. rewrite createInvoice_run.
    repeat case_bool_decide; try done; lia. }
  rewrite Hs'. split.
  { rewrite createInvoice_exec. repeat case_bool_decide; try done; lia. }
  rewrite getInvoice_run, getRemainingAmount_run.
  unfold createInvoice_post. fold i.
  case_bool_decide; read_at; repeat case_bool_decide; try done.
  all: repeat split; try done; try (do 2 f_equal; lia).
  all: intros; read_at; done.
Qed.

Lemma createInvoice_then_getInvoice_witness :
  getInvoice 0 invoiced
  = (invoiced, inr (mkInvoice 0 alice bob 100 0 0 false, "rent")) ∧
  getRemainingAmount 0 invoiced = (invoiced, inr 100).
Proof.
  destruct (createInvoice_then_getInvoice deployed alice bob 100 0 "rent")
    as (_ & _ & H); [apply deployed_reachable | by_eval | by_eval |].
  destruct H as (_ & _ & Hget & Hrem & _); [lia|].
  split; [exact Hget | exact Hrem].
Defined.

(** ** The indices *)

Lemma filter_ext_in {A} (P1 P2 : A → Prop)
    `{!∀ x, Decision (P1 x), !∀ x, Decision (P2 x)} (l : list A) :
  (∀ x, x ∈ l → (P1 x ↔ P2 x)) → filter P1 l = filter P2 l.
Proof.
  induction l as [|x l IH]; intros Hext; [done|].
  rewrite !filter_cons.
  assert (P1 x ↔ P2 x) by (apply Hext; left).
  rewrite IH by (intros; apply Hext; by right).
  repeat case_decide; done || tauto.
Qed.

(** A call that leaves the counter, the issuer and payer of every invoice
    and the two indices as they were keeps the indices exact. *)
Lemma indexed_same s s' :
  nextInvoiceId s' = nextInvoiceId s →
  (∀ i, issuer (invoices_at s' i) = issuer (invoices_at s i) ∧
        payer (invoices_at s' i) = payer (invoices_at s i)) →
  invoicesOfIssuer s' = invoicesOfIssuer s →
  invoicesOfPayer s' = invoicesOfPayer s →
  indexed s → indexed s'.
Proof.
  intros Hn Hf Hi Hp Hidx a. destruct (Hidx a) as [E1 E2].
  unfold invoicesOfIssuer_at, invoicesOfPayer_at, issued_by, addressed_to in *.
  rewrite Hi, Hp, Hn, E1, E2. split.
  - apply list_filter_iff. intros i. by destruct (Hf i) as [-> _].
  - case_decide; [done|]. apply list_filter_iff. intros i.
    by destruct (Hf i) as [_ ->].
Qed.

Lemma seqZ_one m : seqZ m 1 = [m].
Proof. unfold seqZ. cbn. f_equal; lia. Qed.

Lemma createInvoice_post_reads s sender p a d md :
  let n := nextInvoiceId s in
  let s' := createInvoice_post sender p a d md s in
  nextInvoiceId s' = n + 1 ∧
  (∀ i, invoices_at s' i
        = if decide (n = i) then mkInvoice n sender p a 0 d false
          else invoices_at s i) ∧
  (∀ b, invoicesOfIssuer_at s' b
        = if decide (sender = b) then (invoicesOfIssuer_at s b ++ [n])%list
          else invoicesOfIssuer_at s b) ∧
  (∀ b, invoicesOfPayer_at s' b
        = if decide (p ≠ 0 ∧ p = b) then (invoicesOfPayer_at s b ++ [n])%list
          else invoicesOfPayer_at s b).
Proof.
  unfold createInvoice_post. case_bool_decide.
  all: unfold invoices_at, invoicesOfIssuer_at, invoicesOfPayer_at; cbn.
  all: repeat split; try done; intros b; rewrite ?lookup_insert;
    repeat case_decide; subst; try done; tauto.
Qed.

Lemma indexed_create s sender p a d md :
  Inv s → sender ≠ 0 → indexed s →
  indexed (createInvoice_post sender p a d md s).
Proof.
  intros HI Hs Hidx b. destruct (Hidx b) as [E1 E2].
  pose proof (wf_next s (inv_wf s HI)) as Hn.
  destruct (createInvoice_post_reads s sender p a d md)
    as (Hnext & Hinv & Hiss & Hpay).
  cbn zeta in *. rewrite Hiss, Hpay, E1, E2.
  unfold issued_by, addressed_to. rewrite Hnext.
  rewrite seqZ_app, !filter_app by lia.
  rewrite seqZ_one, !filter_cons, !filter_nil.
  rewrite Z.add_0_l, !Hinv.
  rewrite !(decide_True (P := nextInvoiceId s = nextInvoiceId s)) by done.
  cbn [issuer payer].
  assert (Hold : ∀ i, i ∈ seqZ 0 (nextInvoiceId s) → nextInvoiceId s ≠ i).
  { intros i Hi. apply elem_of_seqZ in Hi. lia. }
  rewrite (filter_ext_in
             (λ i, issuer (invoices_at (createInvoice_post sender p a d md s) i) = b)
             (λ i, issuer (invoices_at s i) = b)).
  2:{ intros i Hi. rewrite Hinv. by rewrite decide_False by by apply Hold. }
  rewrite (filter_ext_in
             (λ i, payer (invoices_at (createInvoice_post sender p a d md s) i) = b)
             (λ i, payer (invoices_at s i) = b)).
  2:{ intros i Hi. rewrite Hinv. by rewrite decide_False by by apply Hold. }
  split.
  - repeat case_decide; subst; try done; by rewrite app_nil_r.
  - repeat case_decide; subst; try done; try tauto; by rewrite app_nil_r.
Qed.

Lemma indexed_step s sender c :
  Inv s → call_ok s sender c → indexed s → indexed (step sender c s).
Proof.
  apply (step_rel (λ s s', indexed s → indexed s')); clear s sender c.
  - done.
  - auto.
  - intros s sender cb HI (_ & Hs & Hv & Hb & _) Hidx.
    rewrite callback_as_call.
    destruct cb as [p a d md | j | v | o |]; cbn [as_call callback_value] in *.
    { unfold step. rewrite createInvoice_run.
      repeat case_bool_decide; try done. by apply indexed_create. }
    all: apply (indexed_same s); try done.
    all: try intros i.
    all: call_cases HI Hv Hb; try done.
    all: read_at; done.
  - intros s sender v j HI Hv Hb Hidx.
    apply (indexed_same s); try done.
    all: try intros i.
    all: call_cases HI Hv Hb; try done.
    all: read_at; done.
  - intros s j HI Hiss. apply indexed_same; try done.
    intros i. unfold withdraw_mid. by read_at.
  - intros s a HI. by apply indexed_same.
  - intros s i a x. by apply indexed_same.
  - intros s a x. by apply indexed_same.
Qed.

Lemma reachable_indexed s : reachable s → indexed s.
Proof.
  induction 1 as [o|s sender c Hr IH Hok].
  - intros a. unfold issued_by, addressed_to. cbn. by case_decide.
  - apply indexed_step; [by apply reachable_Inv | done | done].
Qed.

(** X7: the two indices are exact. [getInvoicesOfIssuer a] returns, in
    increasing order and without repetition, the ids of exactly the
    invoices whose issuer is [a]; [getInvoicesOfPayer a] does the same for
    the invoices addressed to [a], and returns nothing for the zero
    address, which marks an open invoice. *)
Theorem indices_are_exact s a :
  reachable s →
  getInvoicesOfIssuer a s = (s, inr (issued_by s a)) ∧
  getInvoicesOfPayer a s
  = (s, inr (if decide (a = 0) then [] else addressed_to s a)) ∧
  (∀ i, i ∈ issued_by s a
        ↔ 0 ≤ i < nextInvoiceId s ∧ issuer (invoices_at s i) = a) ∧
  (∀ i, i ∈ addressed_to s a
        ↔ 0 ≤ i < nextInvoiceId s ∧ payer (invoices_at s i) = a) ∧
  NoDup (issued_by s a) ∧ NoDup (addressed_to s a).
Proof.
  intros Hr. destruct (reachable_indexed s Hr a) as [E1 E2].
  unfold getInvoicesOfIssuer, getInvoicesOfPayer, gets. rewrite E1, E2.
  split; [done|]. split; [done|].
  unfold issued_by, addressed_to.
  split; [|split; [|split]].
  - intros i. rewrite list_elem_of_filter, elem_of_seqZ. split; [|lia].
    intros [-> ?]. split; [lia | done].
  - intros i. rewrite list_elem_of_filter, elem_of_seqZ. split; [|lia].
    intros [-> ?]. split; [lia | done].
  - apply NoDup_filter, NoDup_seqZ.
  - apply NoDup_filter, NoDup_seqZ.
Qed.

Lemma indices_are_exact_witness :
  getInvoicesOfIssuer alice overpaid = (overpaid, inr [0]) ∧
  getInvoicesOfPayer bob overpaid = (overpaid, inr [0]).
Proof.
  destruct (indices_are_exact overpaid alice overpaid_reachable)
    as (H1 & _).
  destruct (indices_are_exact overpaid bob overpaid_reachable)
    as (_ & H2 & _).
  vm_compute in H1, H2. vm_compute. split; [exact H1 | exact H2].
Defined.


(** ** The log of created invoices *)

Lemma created_logged_same s s' :
  nextInvoiceId s' = nextInvoiceId s →
  (∀ i, issuer (invoices_at s' i) = issuer (invoices_at s i) ∧
        payer (invoices_at s' i) = payer (invoices_at s i) ∧
        amount (invoices_at s' i) = amount (invoices_at s i)) →
  createdEvents (events s') = createdEvents (events s) →
  created_logged s → created_logged s'.
Proof.
  intros Hn Hf He Hl. unfold created_logged in *. rewrite He, Hl, Hn.
  f_equal. apply list_fmap_ext. intros _ i _. unfold created_event.
  by destruct (Hf i) as (-> & -> & ->).
Qed.

Lemma created_logged_create s sender p a d md :
  Inv s → created_logged s →
  created_logged (createInvoice_post sender p a d md s).
Proof.
  intros HI Hl. unfold created_logged in *.
  pose proof (wf_next s (inv_wf s HI)) as Hn.
  destruct (createInvoice_post_reads s sender p a d md)
    as (Hnext & Hinv & _). cbn zeta in *.
  rewrite Hnext, seqZ_app, seqZ_one, fmap_app, reverse_app by lia.
  cbn [fmap list_fmap reverse]. rewrite Z.add_0_l.
  unfold created_event at 1. rewrite Hinv, decide_True by done.
  cbn [issuer payer amount].
  replace (created_event (createInvoice_post sender p a d md s)
             <$> seqZ 0 (nextInvoiceId s))
    with (created_event s <$> seqZ 0 (nextInvoiceId s)).
  2:{ apply list_fmap_ext. intros k i Hk.
      assert (i ∈ seqZ 0 (nextInvoiceId s)) as Hi
        by (apply list_elem_of_lookup; eauto).
      apply elem_of_seqZ in Hi. unfold created_event.
      rewrite Hinv, decide_False by lia. done. }
  rewrite <- Hl. unfold createInvoice_post. by case_bool_decide.
Qed.

Lemma created_logged_step s sender c :
  Inv s → call_ok s sender c → created_logged s →
  created_logged (step sender c s).
Proof.
  apply (step_rel (λ s s', created_logged s → created_logged s'));
    clear s sender c.
  - done.
  - auto.
  - intros s sender cb HI (_ & Hs & Hv & Hb & _) Hl.
    rewrite callback_as_call.
    destruct cb as [p a d md | j | v | o |]; cbn [as_call callback_value] in *.
    { unfold step. rewrite createInvoice_run.
      repeat case_bool_decide; try done. by apply created_logged_create. }
    all: apply (created_logged_same s); try done.
    all: try intros i.
    all: call_cases HI Hv Hb; try done.
    all: read_at; done.
  - intros s sender v j HI Hv Hb Hl.
    apply (created_logged_same s); try done.
    all: try intros i.
    all: call_cases HI Hv Hb; try done.
    all: read_at; done.
  - intros s j HI Hiss. apply created_logged_same; try done.
    intros i. unfold withdraw_mid. by read_at.
  - intros s a HI. by apply created_logged_same.
  - intros s i a x. by apply created_logged_same.
  - intros s a x. by apply created_logged_same.
Qed.

Lemma reachable_created_logged s : reachable s → created_logged s.
Proof.
  induction 1 as [o|s sender c Hr IH Hok]; [done|].
  apply created_logged_step; [by apply reachable_Inv | done | done].
Qed.

(** X16: the log tells which invoices exist. Its [InvoiceCreated] events
    are, oldest first, one for each id [0, 1, ..., nextInvoiceId - 1] in
    this order, and each carries the issuer, payer and amount that
    [getInvoice] returns for that id. *)
Theorem created_events_match_invoices s :
  reachable s →
  reverse (createdEvents (events s))
  = created_event s <$> seqZ 0 (nextInvoiceId s) ∧
  Z.of_nat (length (createdEvents (events s))) = nextInvoiceId s ∧
  (∀ i a p x,
     InvoiceCreated i a p x ∈ events s →
     ∃ md, getInvoice i s = (s, inr (invoices_at s i, md)) ∧
           issuer (invoices_at s i) = a ∧ payer (invoices_at s i) = p ∧
           amount (invoices_at s i) = x).
Proof.
  intros Hr. pose proof (reachable_Inv s Hr) as HI.
  pose proof (reachable_created_logged s Hr) as Hl. unfold created_logged in Hl.
  pose proof (wf_next s (inv_wf s HI)) as Hn.
  split; [by rewrite Hl, reverse_involutive|].
  split.
  { rewrite Hl, length_reverse, length_fmap, length_seqZ. lia. }
  intros i a p x Hin.
  assert (Hc : InvoiceCreated i a p x ∈ createdEvents (events s)).
  { unfold createdEvents. apply list_elem_of_omap. eauto. }
  rewrite Hl, elem_of_reverse, list_elem_of_fmap in Hc.
  destruct Hc as (j & Hj & Hrange). apply elem_of_seqZ in Hrange.
  unfold created_event in Hj. injection Hj as -> <- <- <-.
  exists (invoiceMetadata_at s j). rewrite getInvoice_run.
  pose proof (proj2 (Inv_issuer_iff s j HI)) as Hiss.
  rewrite bool_decide_eq_false_2 by (apply Hiss; lia). done.
Qed.

Lemma created_events_match_invoices_witness :
  reverse (createdEvents (events fully_paid))
  = [InvoiceCreated 0 alice bob 100].
Proof.
  destruct (created_events_match_invoices fully_paid fully_paid_reachable)
    as (H & _).
  vm_compute in H. vm_compute. exact H.
Defined.

(** ** Pending returns *)

(** X8: [withdrawPending] fails with "no pending returns" when the caller
    has none. Otherwise it sets the caller's pending return to 0 and then
    sends the caller exactly that amount; the contract always holds
    enough, so only a recipient that fails makes it fail. When the
    recipient accepts, the contract has that much less ether, up to what
    the calls back brought in, no invoice holds more and no other account
    has less pending than before. A recipient that calls nothing back
    leaves the invoices and the other accounts' pending returns as they
    were, and a second call finds nothing. *)
Theorem withdrawPending_pays_once s sender :
  reachable s →
  let x := pendingReturns_at s sender in
  let mid := withdrawPending_mid sender s in
  0 ≤ x ≤ balance s ∧
  (x = 0 →
   ∀ acc, call sender (WithdrawPending acc) s = (s, inl NoPendingReturns)) ∧
  (0 < x →
   pendingReturns_at mid sender = 0 ∧ balance mid = balance s - x ∧
   (∀ acc,
      call sender (WithdrawPending acc) s =
        match acc sender x mid with
        | Some cbs =>
            (add_event (PendingReturnWithdrawn sender x) (callbacks cbs mid),
             inr ())
        | None => (s, inl TransferFailed)
        end) ∧
   (∀ acc cbs,
      acc sender x mid = Some cbs → callbacks_ok cbs mid →
      let s' := step sender (WithdrawPending acc) s in
      balance s' = balance s - x + sent_back cbs ∧
      (∀ i, paidAmount (invoices_at s' i) ≤ paidAmount (invoices_at s i)) ∧
      (∀ a, a ≠ sender → pendingReturns_at s a ≤ pendingReturns_at s' a) ∧
      (cbs = [] →
       pendingReturns_at s' sender = 0 ∧ invoices s' = invoices s ∧
       (∀ a, a ≠ sender → pendingReturns_at s' a = pendingReturns_at s a) ∧
       ∀ acc', call sender (WithdrawPending acc') s'
               = (s', inl NoPendingReturns)))).
Proof.
  intros Hr x mid. pose proof (reachable_Inv s Hr) as HI.
  pose proof (Inv_pending_range s sender HI) as Hx. fold x in Hx.
  split; [lia|]. split.
  { intros Hx0 acc. rewrite withdrawPending_run by done. fold x.
    by rewrite bool_decide_eq_true_2. }
  intros Hx0.
  split; [subst mid; unfold withdrawPending_mid; by read_at|].
  split; [done|]. split.
  { intros acc. rewrite withdrawPending_run by done. fold x mid.
    rewrite bool_decide_eq_false_2 by lia. done. }
  intros acc cbs Hacc Hcbs s'.
  destruct (withdrawPending_accepted s sender acc cbs HI) as
    (Hrun & HI' & Hbal & Hpaid & Hpend); [fold x; lia | done | done |].
  assert (Hs' : s' = withdrawPending_post sender cbs s).
  { subst s'. unfold step. by rewrite Hrun. }
  rewrite Hs'. split; [done|]. split; [done|]. split; [done|].
  intros ->.
  assert (Hz : pendingReturns_at (withdrawPending_post sender [] s) sender = 0).
  { unfold withdrawPending_post, withdrawPending_mid. cbn [callbacks].
    by read_at. }
  split; [done|]. split; [done|]. split.
  { intros a Ha. unfold withdrawPending_post, withdrawPending_mid.
    cbn [callbacks]. by read_at. }
  intros acc'. rewrite withdrawPending_run by done.
  by rewrite Hz, bool_decide_eq_true_2.
Qed.

Lemma withdrawPending_pays_once_witness :
  call bob (WithdrawPending accept_all) invoiced
    = (invoiced, inl NoPendingReturns) ∧
  balance (step bob (WithdrawPending accept_all) overpaid) = 150 - 50 + 0.
Proof.
  split.
  - destruct (withdrawPending_pays_once invoiced bob invoiced_reachable)
      as (_ & H & _). apply H. by_eval.
  - destruct (withdrawPending_pays_once overpaid bob overpaid_reachable)
      as (_ & _ & H). destruct H as (_ & _ & _ & H); [by_eval|].
    destruct (H accept_all []) as (Hb & _); [by_eval | by_eval |].
    vm_compute in Hb. vm_compute. exact Hb.
Defined.

(** ** Cancelling *)

(** X9: [cancelInvoice] fails in exactly three cases, tested in this
    order: the invoice does not exist; the caller is not its issuer; it is
    already cancelled. In every other case it succeeds, and it leaves
    every other invoice, the counter and the balance as they were. *)
Theorem cancelInvoice_fails_exactly s sender i :
  reachable s →
  let s' := step sender (CancelInvoice i) s in
  (call sender (CancelInvoice i) s).2 =
    match invoices s !! i with
    | None => inl InvoiceNotFound
    | Some inv =>
        if bool_decide (issuer inv ≠ sender) then inl UnauthorizedCancel
        else if cancelled inv then inl AlreadyCancelled
        else inr ()
    end ∧
  (∀ j, j ≠ i → invoices_at s' j = invoices_at s j) ∧
  nextInvoiceId s' = nextInvoiceId s ∧ balance s' = balance s.
Proof.
  intros Hr s'. subst s'. pose proof (reachable_Inv s Hr) as HI.
  unfold step. rewrite cancelInvoice_run by done. cbn zeta.
  split.
  - unfold invoices_at. destruct (invoices s !! i) as [inv|] eqn:Hi; cbn.
    + destruct (wf_invoice s (inv_wf s HI) i inv Hi).
      repeat (case_bool_decide || destruct (cancelled _)); done.
    + by case_bool_decide.
  - repeat (case_bool_decide || destruct (cancelled _)); cbn [fst]; try done.
    unfold cancelInvoice_post.
    case_bool_decide; (split; [intros; by read_at | done]).
Qed.

Lemma cancelInvoice_fails_exactly_witness :
  (call bob (CancelInvoice 0) part_paid).2 = inl UnauthorizedCancel ∧
  (call alice (CancelInvoice 0) open_cancelled).2 = inl AlreadyCancelled ∧
  (call alice (CancelInvoice 5) part_paid).2 = inl InvoiceNotFound.
Proof.
  destruct (cancelInvoice_fails_exactly part_paid bob 0 part_paid_reachable)
    as (H1 & _).
  destruct (cancelInvoice_fails_exactly open_cancelled alice 0
              open_cancelled_reachable) as (H2 & _).
  destruct (cancelInvoice_fails_exactly part_paid alice 5 part_paid_reachable)
    as (H3 & _).
  vm_compute in H1, H2, H3. vm_compute.
  split; [exact H1 | split; [exact H2 | exact H3]].
Defined.

(** X10: a cancelled invoice is closed for good. After any further calls
    it is still cancelled, every payment on it fails with "invoice is
    cancelled", and it cannot be cancelled again. *)
Theorem cancelled_invoice_stays_closed s cs i :
  reachable s → run_ok cs s → cancelled (invoices_at s i) = true →
  let s' := run cs s in
  cancelled (invoices_at s' i) = true ∧
  (∀ sender v,
     call_ok s' sender (PayInvoice v i) → 0 < v →
     call sender (PayInvoice v i) s' = (s', inl InvoiceIsCancelled)) ∧
  (∀ sender,
     (call sender (CancelInvoice i) s').2 = inl UnauthorizedCancel ∨
     (call sender (CancelInvoice i) s').2 = inl AlreadyCancelled).
Proof.
  intros Hr Hok Hc s'. pose proof (reachable_Inv s Hr) as HI.
  assert (Hi : 0 ≤ i < nextInvoiceId s).
  { apply (wf_dom s (inv_wf s HI)). unfold invoices_at in Hc.
    by destruct (invoices s !! i). }
  destruct (run_keeps_cancelled s cs i HI Hok Hi Hc) as (Hi' & Hc').
  fold s' in Hi', Hc'.
  assert (HI' : Inv s') by (apply reachable_Inv; by apply reachable_run).
  pose proof (proj2 (Inv_issuer_iff s' i HI') Hi') as Hiss.
  split; [done|]. split.
  - intros sender v (_ & _ & Hv & Hb & _) Hv0. cbn in Hv, Hb.
    rewrite payInvoice_run by done. cbn zeta. rewrite Hc'.
    repeat case_bool_decide; done || lia.
  - intros sender. rewrite cancelInvoice_run by done. cbn zeta. rewrite Hc'.
    repeat case_bool_decide; cbn; try done; auto.
Qed.

Lemma cancelled_invoice_stays_closed_witness :
  call carol (PayInvoice 10 0)
    (run [(alice, Withdraw 0 accept_all)] open_cancelled)
  = (run [(alice, Withdraw 0 accept_all)] open_cancelled,
     inl InvoiceIsCancelled).
Proof.
  destruct (cancelled_invoice_stays_closed open_cancelled
              [(alice, Withdraw 0 accept_all)] 0)
    as (_ & H & _); [apply open_cancelled_reachable | by_eval | by_eval |].
  apply (H carol 10); [by_eval | lia].
Defined.

(** ** Withdrawing *)

(** X11: [withdraw] fails in exactly four cases, tested in this order: the
    invoice does not exist; the caller is not its issuer; it holds
    nothing; the recipient's call fails. The contract always holds enough
    for the transfer. In every other case it succeeds. Whatever the
    recipient calls back, no invoice holds more and no account has less
    pending afterwards; a recipient that calls nothing back leaves every
    other invoice and all pending returns as they were. *)
Theorem withdraw_fails_exactly s sender i acc :
  reachable s → call_ok s sender (Withdraw i acc) →
  let s' := step sender (Withdraw i acc) s in
  (call sender (Withdraw i acc) s).2 =
    match invoices s !! i with
    | None => inl InvoiceNotFound
    | Some inv =>
        if bool_decide (issuer inv ≠ sender) then inl UnauthorizedWithdraw
        else if bool_decide (paidAmount inv = 0) then inl NoFundsToWithdraw
        else if acc sender (paidAmount inv) (withdraw_mid i s) is Some _
          then inr ()
        else inl TransferFailed
    end ∧
  paidAmount (invoices_at s i) ≤ balance s ∧
  (∀ j, paidAmount (invoices_at s' j) ≤ paidAmount (invoices_at s j)) ∧
  (∀ a, pendingReturns_at s a ≤ pendingReturns_at s' a) ∧
  (calls_back sender (Withdraw i acc) s = [] →
   (∀ j, j ≠ i → invoices_at s' j = invoices_at s j) ∧
   pendingReturns s' = pendingReturns s).
Proof.
  intros Hr Hok s'. subst s'. pose proof (reachable_Inv s Hr) as HI.
  split; [|split].
  - rewrite withdraw_run by done. cbn zeta.
    unfold invoices_at. destruct (invoices s !! i) as [inv|] eqn:Hi; cbn.
    + destruct (wf_invoice s (inv_wf s HI) i inv Hi).
      repeat (case_bool_decide || destruct (acc _ _ _)); done.
    + by case_bool_decide.
  - unfold invoices_at. destruct (invoices s !! i) as [inv|] eqn:Hi; cbn.
    + destruct (Inv_bounds s i inv sender HI Hi) as (? & ? & ? & ? & ?). lia.
    + pose proof (Inv_pending_range s sender HI). lia.
  - unfold calls_back, step.
    destruct (withdraw_step s sender i acc HI Hok)
      as [[e ->] | (cbs & Hiss & _ & _ & Hacc & Hcbs & ->)]; cbn [fst snd].
    { repeat split; intros; done || lia. }
    rewrite Hacc. change (default [] (Some cbs)) with cbs.
    destruct (callbacks_no_payment cbs (withdraw_mid i s)) as [Hle Hge];
      [by apply Inv_withdraw_mid | done |].
    pose proof (Inv_paid_range s i HI) as Hrange.
    split; [|split].
    + intros j. specialize (Hle j).
      change (invoices_at (withdraw_post sender i cbs s) j)
        with (invoices_at (callbacks cbs (withdraw_mid i s)) j).
      revert Hle. unfold withdraw_mid. read_at; unfold invoices_at in *; lia.
    + intros a. apply (Hge a).
    + intros ->. unfold withdraw_post, withdraw_mid. cbn [callbacks].
      split; [intros; by read_at | done].
Qed.

Lemma withdraw_fails_exactly_witness :
  (call bob (Withdraw 0 accept_all) fully_paid).2 = inl UnauthorizedWithdraw ∧
  (call alice (Withdraw 0 accept_all) invoiced).2 = inl NoFundsToWithdraw ∧
  (call alice (Withdraw 3 accept_all) invoiced).2 = inl InvoiceNotFound.
Proof.
  destruct (withdraw_fails_exactly fully_paid bob 0 accept_all
              fully_paid_reachable ltac:(by_eval)) as (H1 & _).
  destruct (withdraw_fails_exactly invoiced alice 0 accept_all
              invoiced_reachable ltac:(by_eval)) as (H2 & _).
  destruct (withdraw_fails_exactly invoiced alice 3 accept_all
              invoiced_reachable ltac:(by_eval)) as (H3 & _).
  vm_compute in H1, H2, H3. vm_compute.
  split; [exact H1 | split; [exact H2 | exact H3]].
Defined.

(** ** How the functions compose *)

(** X12: [withdraw] reopens an invoice. After the issuer has withdrawn
    what an invoice held, the whole amount is owed again, even if the
    invoice had been paid in full before; unless the invoice is cancelled
    by then, an allowed payer's payment of [v > 0] is accepted and
    [min v amount] of it is applied. *)
Theorem withdraw_reopens_invoice s sender i acc payer_ v :
  reachable s → call_ok s sender (Withdraw i acc) →
  let inv := invoices_at s i in
  let s1 := step sender (Withdraw i acc) s in
  let s2 := step payer_ (PayInvoice v i) s1 in
  (call sender (Withdraw i acc) s).2 = inr () →
  getRemainingAmount i s1 = (s1, inr (amount inv)) ∧
  (cancelled (invoices_at s1 i) = false →
   call_ok s1 payer_ (PayInvoice v i) → 0 < v →
   payer inv = 0 ∨ payer inv = payer_ →
   (call payer_ (PayInvoice v i) s1).2 = inr () ∧
   paidAmount (invoices_at s2 i) = Z.min v (amount inv)).
Proof.
  intros Hr Hok inv s1 s2 Hdone. pose proof (reachable_Inv s Hr) as HI.
  destruct (withdraw_step s sender i acc HI Hok)
    as [[e He] | (cbs & Hiss & Hs & Hp & Hacc & Hcbs & _)];
    [by rewrite He in Hdone|].
  destruct (withdraw_accepted s sender i acc cbs HI Hiss Hs Hp Hacc Hcbs)
    as (Hrun & HI1 & Hkeep & Hz & _).
  assert (Hs1 : s1 = withdraw_post sender i cbs s).
  { subst s1. unfold step. by rewrite Hrun. }
  rewrite <- Hs1 in HI1, Hkeep, Hz.
  pose proof (proj1 (Inv_issuer_iff s i HI) Hiss) as Hi.
  destruct (Inv_invoices_at s i HI Hi) as [_ [_ _ Ham _ _]]. fold inv in Ham.
  destruct (Hkeep Hi) as (_ & Hiss1 & Hpay1 & Ham1 & _).
  fold inv in Hiss1, Hpay1, Ham1.
  split.
  { rewrite getRemainingAmount_run, Hiss1, Ham1, Hz.
    case_bool_decide; [done|]. do 2 f_equal. lia. }
  intros Hc (_ & _ & Hv & Hb & _) Hv0 Hauth. cbn in Hv, Hb.
  subst s2. unfold step. rewrite payInvoice_run by done. cbn zeta.
  rewrite Hiss1, Hpay1, Ham1, Hz, Hc.
  repeat case_bool_decide; try done; try lia; try tauto.
  split; [done|]. cbn [fst]. unfold payInvoice_post.
  rewrite Ham1, Hz. case_bool_decide; read_at; lia.
Qed.

Lemma withdraw_reopens_invoice_witness :
  getRemainingAmount 0 (step alice (Withdraw 0 accept_all) fully_paid)
  = (step alice (Withdraw 0 accept_all) fully_paid, inr 100) ∧
  (call bob (PayInvoice 100 0)
     (step alice (Withdraw 0 accept_all) fully_paid)).2 = inr ().
Proof.
  destruct (withdraw_reopens_invoice fully_paid alice 0 accept_all bob 100)
    as (H1 & H2);
    [ apply fully_paid_reachable | by_eval | by_eval | ].
  destruct H2 as (H2 & _); [by_eval | by_eval | lia | right; by_eval |].
  vm_compute in H1, H2. vm_compute. split; [exact H1 | exact H2].
Defined.

(** X13: a cancelled invoice's money goes back to its named payer. After
    the issuer cancels a live invoice that names a payer and holds
    [x > 0], the payer's pending return is what it was plus [x];
    the payer's [withdrawPending] then hands the payer control with
    exactly that sum, taken out of the balance, and succeeds unless the
    payer's call fails; the issuer's [withdraw] finds no funds. *)
Theorem cancel_then_withdrawPending s sender i :
  reachable s →
  let inv := invoices_at s i in
  let p := payer inv in
  let due := pendingReturns_at s p + paidAmount inv in
  let s1 := step sender (CancelInvoice i) s in
  issuer inv = sender → cancelled inv = false → p ≠ 0 → paidAmount inv > 0 →
  pendingReturns_at s1 p = due ∧
  balance (withdrawPending_mid p s1) = balance s - due ∧
  (∀ acc,
     call p (WithdrawPending acc) s1 =
       match acc p due (withdrawPending_mid p s1) with
       | Some cbs =>
           (add_event (PendingReturnWithdrawn p due)
              (callbacks cbs (withdrawPending_mid p s1)), inr ())
       | None => (s1, inl TransferFailed)
       end) ∧
  (∀ acc, call sender (Withdraw i acc) s1 = (s1, inl NoFundsToWithdraw)).
Proof.
  intros Hr inv p due s1 Hiss Hc Hp Hx.
  pose proof (reachable_Inv s Hr) as HI.
  assert (Hi : 0 ≤ i < nextInvoiceId s).
  { apply (wf_dom s (inv_wf s HI)). subst inv. unfold invoices_at in Hx.
    by destruct (invoices s !! i). }
  destruct (Inv_invoices_at s i HI Hi) as [_ Hok]. fold inv in Hok.
  destruct Hok as [_ Hiss0 _ _ _].
  assert (Hs1 : s1 = cancelInvoice_post i s).
  { subst s1. unfold step. rewrite cancelInvoice_run by done. cbn zeta.
    fold inv. rewrite Hc. repeat case_bool_decide; done. }
  assert (HI1 : Inv s1) by (subst s1; by apply Inv_cancelInvoice).
  assert (Hpend : pendingReturns_at s1 p = due).
  { rewrite Hs1. unfold cancelInvoice_post. fold inv p.
    rewrite bool_decide_eq_true_2 by done. by read_at. }
  assert (Hinv1 : invoices_at s1 i
                  = with_paidAmount 0 (with_cancelled true inv)).
  { rewrite Hs1. unfold cancelInvoice_post. fold inv p.
    rewrite bool_decide_eq_true_2 by done. by read_at. }
  assert (Hbal1 : balance s1 = balance s).
  { rewrite Hs1. unfold cancelInvoice_post. by case_bool_decide. }
  assert (Hdue : 0 < due).
  { pose proof (Inv_pending_range s p HI). subst due. lia. }
  split; [done|]. split.
  { unfold withdrawPending_mid. cbn [balance set_balance].
    by rewrite Hpend, Hbal1. }
  split.
  - intros acc. rewrite withdrawPending_run by done. rewrite Hpend.
    rewrite bool_decide_eq_false_2 by lia.
    destruct (acc _ _ _); [|done]. unfold withdrawPending_post.
    by rewrite Hpend.
  - intros acc. rewrite withdraw_run by done. cbn zeta. rewrite Hinv1. cbn.
    repeat case_bool_decide; done.
Qed.

Lemma cancel_then_withdrawPending_witness :
  pendingReturns_at (step alice (CancelInvoice 0) part_paid) bob = 30 ∧
  balance (withdrawPending_mid bob (step alice (CancelInvoice 0) part_paid))
  = 0.
Proof.
  destruct (cancel_then_withdrawPending part_paid alice 0)
    as (H1 & H2 & _);
    [ apply part_paid_reachable | by_eval | by_eval | by_eval | by_eval | ].
  vm_compute in H1, H2. vm_compute. split; [exact H1 | exact H2].
Defined.

(** X14: an overpayment costs the payer nothing beyond what the invoice
    was owed. After a payment of [v] greater than the remaining amount
    the invoice is paid in full, and the payer's [withdrawPending] hands
    the payer control with what was pending before plus the excess
    [v - remaining], taken out of the balance, so the contract keeps
    exactly [remaining] of the payment. *)
Theorem overpay_then_withdrawPending s sender v i :
  reachable s → call_ok s sender (PayInvoice v i) →
  let inv := invoices_at s i in
  let remaining := amount inv - paidAmount inv in
  let due := pendingReturns_at s sender + (v - remaining) in
  let s1 := step sender (PayInvoice v i) s in
  issuer inv ≠ 0 → cancelled inv = false →
  payer inv = 0 ∨ payer inv = sender →
  0 < remaining → remaining < v →
  paidAmount (invoices_at s1 i) = amount inv ∧
  getRemainingAmount i s1 = (s1, inr 0) ∧
  pendingReturns_at s1 sender = due ∧
  balance (withdrawPending_mid sender s1)
  = balance s + remaining - pendingReturns_at s sender ∧
  (∀ acc,
     call sender (WithdrawPending acc) s1 =
       match acc sender due (withdrawPending_mid sender s1) with
       | Some cbs =>
           (add_event (PendingReturnWithdrawn sender due)
              (callbacks cbs (withdrawPending_mid sender s1)), inr ())
       | None => (s1, inl TransferFailed)
       end).
Proof.
  intros Hr (_ & _ & Hv & Hb & _) inv remaining due s1 Hiss Hc Hauth Hrem
    Hover.
  cbn in Hv, Hb. pose proof (reachable_Inv s Hr) as HI.
  assert (Hs1 : s1 = payInvoice_post sender v i s).
  { subst s1. unfold step. rewrite payInvoice_run by done. cbn zeta.
    fold inv. rewrite Hc. repeat case_bool_decide; try done; try lia; tauto. }
  assert (HI1 : Inv s1) by (subst s1; by apply Inv_payInvoice).
  assert (Hpend : pendingReturns_at s1 sender = due).
  { rewrite Hs1. unfold payInvoice_post. fold inv remaining.
    rewrite bool_decide_eq_true_2 by lia. by read_at. }
  assert (Hinv1 : invoices_at s1 i = with_paidAmount (amount inv) inv).
  { rewrite Hs1. unfold payInvoice_post. fold inv remaining.
    rewrite bool_decide_eq_true_2 by lia. rewrite Z.min_r by lia.
    subst remaining inv. read_at; [f_equal; lia | done]. }
  assert (Hbal1 : balance s1 = balance s + v).
  { rewrite Hs1. unfold payInvoice_post. by case_bool_decide. }
  assert (Hdue : 0 < due).
  { pose proof (Inv_pending_range s sender HI). subst due. lia. }
  split; [by rewrite Hinv1|]. split.
  { rewrite getRemainingAmount_run, Hinv1. cbn.
    destruct (Inv_paid_range s i HI). fold inv in H, H0.
    case_bool_decide; [done|]. do 2 f_equal. lia. }
  split; [done|]. split.
  { unfold withdrawPending_mid. cbn [balance set_balance].
    rewrite Hpend, Hbal1. subst due. lia. }
  intros acc. rewrite withdrawPending_run by done. rewrite Hpend.
  rewrite bool_decide_eq_false_2 by lia.
  destruct (acc _ _ _); [|done]. unfold withdrawPending_post.
  by rewrite Hpend.
Qed.

Lemma overpay_then_withdrawPending_witness :
  paidAmount (invoices_at (step bob (PayInvoice 150 0) invoiced) 0) = 100 ∧
  balance (withdrawPending_mid bob (step bob (PayInvoice 150 0) invoiced))
  = 100.
Proof.
  destruct (overpay_then_withdrawPending invoiced bob 150 0)
    as (H1 & _ & _ & H2 & _);
    [ apply invoiced_reachable | by_eval | by_eval | by_eval | right; by_eval
    | by_eval | by_eval | ].
  vm_compute in H1, H2. vm_compute. split; [exact H1 | exact H2].
Defined.

(** ** The invoices page *)

(** X15: the buttons of the invoices page agree with the contract, for an
    invoice read with [getInvoice] in the state the click is executed in.
    "Withdraw" is shown exactly when [withdraw] by the connected account
    passes every check of the contract, so that only the transfer can
    fail. "Pay" is shown exactly when no withdrawal of the invoice has
    been logged and paying [remaining] succeeds; that payment settles the
    invoice in full and creates no pending return. *)
Theorem page_buttons_match_contract s connectedAddress i invoice md evs :
  reachable s → connectedAddress ≠ 0 →
  getInvoice i s = (s, inr (invoice, md)) →
  balance s + remaining invoice ≤ MAX_UINT256 →
  let pay := call connectedAddress (PayInvoice (remaining invoice) i) s in
  (∀ acc,
     (call connectedAddress (Withdraw i acc) s).2 =
       if canWithdraw connectedAddress invoice
       then if acc connectedAddress (paidAmount invoice) (withdraw_mid i s)
               is Some _
            then inr () else inl TransferFailed
       else if isIssuer connectedAddress invoice then inl NoFundsToWithdraw
       else inl UnauthorizedWithdraw) ∧
  (canPay connectedAddress evs invoice = true
   ↔ wasWithdrawn evs invoice = false ∧ pay.2 = inr ()) ∧
  (pay.2 = inr () →
   paidAmount (invoices_at pay.1 i) = amount invoice ∧
   pendingReturns pay.1 = pendingReturns s).
Proof.
  intros Hr Hc Hget Hb pay. pose proof (reachable_Inv s Hr) as HI.
  rewrite getInvoice_run in Hget.
  case_bool_decide as Hiss; [done|]. injection Hget as <- <-.
  pose proof (Inv_paid_range s i HI) as Hrange.
  set (inv := invoices_at s i) in *.
  assert (Hrem : 0 ≤ remaining inv) by (unfold remaining; lia).
  assert (Hpay : pay =
    if bool_decide (remaining inv ≤ 0) then (s, inl InvalidAmount)
    else if cancelled inv then (s, inl InvoiceIsCancelled)
    else if bool_decide (payer inv ≠ 0 ∧ payer inv ≠ connectedAddress)
      then (s, inl UnauthorizedPayer)
    else (payInvoice_post connectedAddress (remaining inv) i s, inr ())).
  { subst pay. rewrite payInvoice_run by done. cbn zeta. fold inv.
    unfold remaining in *.
    repeat (case_bool_decide || destruct (cancelled _)); done || lia. }
  split; [|split].
  - intros acc. rewrite withdraw_run by done. cbn zeta. fold inv.
    unfold canWithdraw, isIssuer.
    repeat (case_bool_decide || destruct (acc _ _ _)); cbn; done || lia.
  - rewrite Hpay. unfold canPay, isFullyPaid, isPayer.
    destruct (wasWithdrawn evs inv), (cancelled inv);
      repeat case_bool_decide; cbn; split; intros; destruct_and?;
      try done; try lia; try tauto.
  - rewrite Hpay.
    repeat (case_bool_decide || destruct (cancelled _)); cbn; try done.
    intros _. unfold payInvoice_post. fold inv.
    unfold remaining in *. rewrite Z.min_l by lia.
    rewrite bool_decide_eq_false_2 by lia.
    split; [read_at; lia | done].
Qed.

Lemma page_buttons_match_contract_witness :
  canPay bob [] (invoices_at part_paid 0) = true ∧
  (call bob (PayInvoice 70 0) part_paid).2 = inr () ∧
  paidAmount (invoices_at (call bob (PayInvoice 70 0) part_paid).1 0) = 100.
Proof.
  destruct (page_buttons_match_contract part_paid bob 0
              (invoices_at part_paid 0) "rent" [])
    as (_ & Hpay & Hpaid);
    [apply part_paid_reachable | by_eval | by_eval | by_eval |].
  assert (Hcan : canPay bob [] (invoices_at part_paid 0) = true) by by_eval.
  destruct (proj1 Hpay Hcan) as [_ Hok].
  destruct (Hpaid Hok) as [Hp _].
  vm_compute in Hok, Hp. vm_compute.
  split; [reflexivity | split; [exact Hok | exact Hp]].
Defined.

Lemma elem_of_foldl_add_id l acc i :
  i ∈ foldl add_id acc l ↔ i ∈ acc ∨ i ∈ l.
Proof.
  revert acc. induction l as [|x l IH]; intros acc; cbn.
  - rewrite elem_of_nil. tauto.
  - rewrite IH, elem_of_cons. unfold add_id. case_bool_decide.
    + split; [tauto|]. intros [?|[->|?]]; auto.
    + rewrite elem_of_app, list_elem_of_singleton. tauto.
Qed.

Lemma NoDup_foldl_add_id l acc : NoDup acc → NoDup (foldl add_id acc l).
Proof.
  revert acc. induction l as [|x l IH]; intros acc Hacc; [done|].
  cbn. apply IH. unfold add_id. case_bool_decide; [done|].
  apply NoDup_app. split; [done|]. split; [|apply NoDup_singleton].
  intros y Hy Hx. apply list_elem_of_singleton in Hx. by subst.
Qed.

Lemma elem_of_event_ids s i :
  Inv s → created_logged s →
  i ∈ event_ids (events s) ↔ i ≠ 0 ∧ 0 ≤ i < nextInvoiceId s.
Proof.
  intros HI Hl. unfold created_logged in Hl.
  unfold event_ids. rewrite list_elem_of_omap. split.
  - intros (e & He & Hsel). destruct e as [|j a p x| | | |]; try done.
    case_bool_decide; [|done]. injection Hsel as ->. split; [done|].
    assert (Hc : InvoiceCreated i a p x ∈ createdEvents (events s)).
    { unfold createdEvents. apply list_elem_of_omap. eauto. }
    rewrite Hl, elem_of_reverse, list_elem_of_fmap in Hc.
    destruct Hc as (j & Hj & Hrange). apply elem_of_seqZ in Hrange.
    unfold created_event in Hj. injection Hj as -> _ _ _. lia.
  - intros [Hi0 Hi].
    assert (Hc : created_event s i ∈ createdEvents (events s)).
    { rewrite Hl, elem_of_reverse, list_elem_of_fmap. exists i.
      split; [done|]. apply elem_of_seqZ. lia. }
    unfold createdEvents in Hc. apply list_elem_of_omap in Hc.
    destruct Hc as (e & He & Hsel).
    destruct e; try done. injection Hsel as ->.
    eexists. split; [exact He|]. unfold created_event.
    by rewrite bool_decide_eq_true_2.
Qed.

Example page_hides_invoice_0_from_carol :
  allInvoiceIds (invoicesOfIssuer_at open_paid carol)
    (invoicesOfPayer_at open_paid carol) (events open_paid) = [] ∧
  (call carol (PayInvoice 70 0) open_paid).2 = inr ().
Proof. by_eval. Qed.

(** X17: which invoices the page shows. From the two indices of the
    connected account and the log, the page collects every existing
    invoice except that invoice 0 is collected only when the connected
    account is its issuer or its payer; it collects no id twice, and
    [getInvoice] succeeds on every id it collects. *)
Theorem page_collects_existing_ids s connectedAddress :
  reachable s → connectedAddress ≠ 0 →
  let ids := allInvoiceIds (invoicesOfIssuer_at s connectedAddress)
               (invoicesOfPayer_at s connectedAddress) (events s) in
  NoDup ids ∧
  (∀ i, i ∈ ids
        ↔ 0 ≤ i < nextInvoiceId s ∧
          (issuer (invoices_at s i) = connectedAddress ∨
           payer (invoices_at s i) = connectedAddress ∨ i ≠ 0)) ∧
  (∀ i, i ∈ ids →
        getInvoice i s = (s, inr (invoices_at s i, invoiceMetadata_at s i))).
Proof.
  intros Hr Hc ids. pose proof (reachable_Inv s Hr) as HI.
  pose proof (reachable_created_logged s Hr) as Hl.
  destruct (reachable_indexed s Hr connectedAddress) as [E1 E2].
  rewrite decide_False in E2 by done.
  assert (Hmem : ∀ i, i ∈ ids
        ↔ 0 ≤ i < nextInvoiceId s ∧
          (issuer (invoices_at s i) = connectedAddress ∨
           payer (invoices_at s i) = connectedAddress ∨ i ≠ 0)).
  { intros i. subst ids. unfold allInvoiceIds.
    rewrite !elem_of_foldl_add_id, elem_of_nil, E1, E2.
    rewrite (elem_of_event_ids s i HI Hl).
    unfold issued_by, addressed_to.
    rewrite !list_elem_of_filter, elem_of_seqZ. split; [|intros [? [?|[?|?]]]].
    - intros [[[[]|[? ?]]|[? ?]]|[? ?]]; (split; [lia | auto]).
    - left. left. right. split; [done | lia].
    - left. right. split; [done | lia].
    - right. done. }
  split; [|split; [exact Hmem|]].
  - subst ids. unfold allInvoiceIds.
    repeat apply NoDup_foldl_add_id. apply NoDup_nil_2.
  - intros i Hi. apply Hmem in Hi as [Hi _]. rewrite getInvoice_run.
    pose proof (proj2 (Inv_issuer_iff s i HI)) as Hiss.
    by rewrite bool_decide_eq_false_2 by (apply Hiss; lia).
Qed.

Lemma page_collects_existing_ids_witness :
  getInvoice 0 open_paid
  = (open_paid, inr (invoices_at open_paid 0, invoiceMetadata_at open_paid 0)).
Proof.
  destruct (page_collects_existing_ids open_paid alice)
    as (_ & Hmem & Hget); [apply open_paid_reachable | by_eval |].
  apply Hget, Hmem. split; [by_eval | left; by_eval].
Defined.
